(** * Textual repair scripts of WORKING_ASTRAL_CORE: model and properties

    The repository holds three Python scripts that patch TypeScript sources
    with ordered lists of [re.sub] rewrites:

    - [comprehensive_fix.py]   ([fix_file_syntax] and its driver loop),
    - [fix_syntax_errors.py]   ([fix_syntax_errors] and its driver loop),
    - [fix_remaining_syntax.py] (a straight-line module body).

    The development embeds the fragment of Python's regular expressions that
    the scripts use as a backtracking matcher, [re.sub] on top of it, the three
    rule lists exactly as written, and the file handling of the drivers over
    an explicit file store with a log of writes and printed lines. *)

From Stdlib Require Import NArith Ascii String List Bool Lia.
From stdpp Require Import base option list strings pretty gmap.

Set Warnings "-comment-terminator-in-string".

Local Open Scope N_scope.
Local Open Scope list_scope.

(** ** Text *)

(** A Python [str] is a sequence of Unicode code points. *)
Definition char : Type := N.
Definition buffer : Type := list char.

Definition ch (a : ascii) : char := N_of_ascii a.
Definition str (s : string) : buffer := map ch (list_ascii_of_string s).

Definition nl : char := 10.
Definition tab : char := 9.

(** The alphanumeric table of the interpreter's Unicode database is not part
    of the repository; [\w] consults it outside ASCII. *)
Class UnicodeDb : Type := unicode_isalnum : char -> bool.

Definition in_range (lo hi c : char) : bool := (lo <=? c) && (c <=? hi).

(** [\s] on [str] patterns: the code points for which [str.isspace] holds. *)
Definition unicode_space : list (char * char) :=
  [ (9, 13); (28, 32); (133, 133); (160, 160); (5760, 5760); (8192, 8202);
    (8232, 8233); (8239, 8239); (8287, 8287); (12288, 12288) ].

Definition is_space (c : char) : bool :=
  existsb (fun r => in_range (fst r) (snd r) c) unicode_space.

Definition is_ascii_word (c : char) : bool :=
  in_range (ch "a") (ch "z") c || in_range (ch "A") (ch "Z") c
  || in_range (ch "0") (ch "9") c || (c =? ch "_").

Definition is_word `{UnicodeDb} (c : char) : bool :=
  if c <? 128 then is_ascii_word c else unicode_isalnum c.

(** ** Regular expressions: the fragment the scripts use *)

Inductive citem : Type :=
| CChar (c : char)
| CRange (lo hi : char)
| CSpace
| CWord.

(** A bracket expression, [negated] for [[^...]]. *)
Record charset : Type := Charset { negated : bool; items : list citem }.

(** Every quantifier in the scripts is a greedy [*] or [+] on a single
    character class; the only anchor is [$] under [re.MULTILINE]. *)
Inductive re : Type :=
| Eps
| Lit (s : buffer)
| Chr (cs : charset)
| Rep (min : nat) (cs : charset)
| Seq (r1 r2 : re)
| Alt (r1 r2 : re)
| Group (n : nat) (r : re)
| EolM.

Inductive titem : Type :=
| TLit (s : buffer)
| TRef (n : nat).

Definition template : Type := list titem.

Definition captures : Type := list (nat * buffer).

Section Engine.
Context `{UnicodeDb}.

Definition citem_mem (i : citem) (c : char) : bool :=
  match i with
  | CChar d => c =? d
  | CRange lo hi => in_range lo hi c
  | CSpace => is_space c
  | CWord => is_word c
  end.

Definition cs_mem (cs : charset) (c : char) : bool :=
  xorb (negated cs) (existsb (fun i => citem_mem i c) (items cs)).

(** [$] with [re.MULTILINE]: at the end of the text or just before a newline. *)
Definition at_eol (s : buffer) : bool :=
  match s with
  | [] => true
  | c :: _ => c =? nl
  end.

Fixpoint strip_prefix (p s : buffer) : option buffer :=
  match p, s with
  | [], _ => Some s
  | a :: p', c :: s' => if a =? c then strip_prefix p' s' else None
  | _ :: _, [] => None
  end.

Definition result : Type := option (buffer * captures).

(** Greedy repetition of one class with backtracking: take as many characters
    as possible, then give them back one at a time. *)
Fixpoint rep (cs : charset) (min : nat) (s : buffer)
    (k : buffer -> result) : result :=
  let stop := match min with O => k s | S _ => None end in
  match s with
  | c :: s' =>
      if cs_mem cs c then
        match rep cs (Nat.pred min) s' k with
        | Some r => Some r
        | None => stop
        end
      else stop
  | [] => stop
  end.

(** The text a group matched, from what was left when it opened and closed. *)
Definition span (s rest : buffer) : buffer :=
  take (length s - length rest) s.

(** Backtracking matcher in continuation-passing style: [k] receives what is
    left of the text and the groups captured so far. *)
Fixpoint mtch (r : re) (s : buffer) (caps : captures)
    (k : buffer -> captures -> result) : result :=
  match r with
  | Eps => k s caps
  | Lit p =>
      match strip_prefix p s with
      | Some s' => k s' caps
      | None => None
      end
  | Chr cs =>
      match s with
      | c :: s' => if cs_mem cs c then k s' caps else None
      | [] => None
      end
  | Rep min cs => rep cs min s (fun s' => k s' caps)
  | Seq r1 r2 => mtch r1 s caps (fun s' caps' => mtch r2 s' caps' k)
  | Alt r1 r2 =>
      match mtch r1 s caps k with
      | Some x => Some x
      | None => mtch r2 s caps k
      end
  | Group n r1 =>
      mtch r1 s caps (fun s' caps' => k s' ((n, span s s') :: caps'))
  | EolM => if at_eol s then k s caps else None
  end.

(** One match attempt at the head of [s]; [must_advance] refuses the empty
    match, as the search does right after an empty match. *)
Definition match_at (r : re) (s : buffer) (must_advance : bool) : result :=
  mtch r s []
    (fun s' caps =>
       if must_advance && (length s' =? length s)%nat then None
       else Some (s', caps)).

Fixpoint group_of (n : nat) (caps : captures) : buffer :=
  match caps with
  | [] => []
  | (m, v) :: caps' => if (m =? n)%nat then v else group_of n caps'
  end.

(** A group that took no part in the match expands to the empty string. *)
Fixpoint expand (t : template) (caps : captures) : buffer :=
  match t with
  | [] => []
  | TLit s :: t' => s ++ expand t' caps
  | TRef n :: t' => group_of n caps ++ expand t' caps
  end.

(** The scan of [re.sub]: leftmost matches, left to right, never overlapping;
    [skip] counts the characters of the current match still to be dropped.
    An empty match is replaced and the next attempt at the same place must
    advance, as the interpreter does from Python 3.7 on. *)
Fixpoint sub_go (r : re) (t : template) (skip : nat) (s : buffer) : buffer :=
  match skip with
  | S k =>
      match s with
      | _ :: s' => sub_go r t k s'
      | [] => []
      end
  | O =>
      let copy :=
        match s with
        | c :: s' => c :: sub_go r t 0 s'
        | [] => []
        end in
      let drop n :=
        match n, s with
        | S k, _ :: s' => sub_go r t k s'
        | _, _ => []
        end in
      match match_at r s false with
      | None => copy
      | Some (rest, caps) =>
          match (length s - length rest)%nat with
          | S k => expand t caps ++ drop (S k)
          | O =>
              expand t caps ++
              match match_at r s true with
              | Some (rest', caps') =>
                  expand t caps' ++ drop (length s - length rest')%nat
              | None => copy
              end
          end
      end
  end.

End Engine.

(** ** [re.sub] *)

Inductive exn : Type :=
| ReError (msg : string)
| FileNotFoundError (path : string)
| IsADirectoryError (path : string)
| PermissionError (path : string)
| UnicodeDecodeError.

Inductive outcome (A : Type) : Type :=
| Return (a : A)
| Raise (e : exn).

Arguments Return {A} a.
Arguments Raise {A} e.

#[export] Instance outcome_ret : MRet outcome := fun _ a => Return a.

#[export] Instance outcome_bind : MBind outcome := fun _ _ f m =>
  match m with
  | Return a => f a
  | Raise e => Raise e
  end.

(** The number of capturing groups of a pattern. *)
Fixpoint groups (r : re) : nat :=
  match r with
  | Seq r1 r2 | Alt r1 r2 => Nat.max (groups r1) (groups r2)
  | Group n r1 => Nat.max n (groups r1)
  | _ => O
  end.

Definition titem_ok (r : re) (i : titem) : bool :=
  match i with
  | TLit _ => true
  | TRef n => (1 <=? n)%nat && (n <=? groups r)%nat
  end.

(** [re.sub(pattern, repl, string)]: the template is checked against the
    pattern before any matching, and a reference to a group the pattern does
    not have raises [re.error]. *)
Definition re_sub `{UnicodeDb} (r : re) (t : template) (s : buffer)
    : outcome buffer :=
  if forallb (titem_ok r) t then Return (sub_go r t 0 s)
  else Raise (ReError "invalid group reference").

(** ** The patterns *)

Definition chr (a : ascii) : citem := CChar (ch a).
Definition rng (a b : ascii) : citem := CRange (ch a) (ch b).
Definition cset (l : list citem) : charset := Charset false l.
Definition cnot (l : list citem) : charset := Charset true l.
Definition star (cs : charset) : re := Rep 0 cs.
Definition plus (cs : charset) : re := Rep 1 cs.
Definition lit (s : string) : re := Lit (str s).

Fixpoint seq (l : list re) : re :=
  match l with
  | [] => Eps
  | [r] => r
  | r :: l' => Seq r (seq l')
  end.

Fixpoint alt (l : list re) : re :=
  match l with
  | [] => Eps
  | [r] => r
  | r :: l' => Alt r (alt l')
  end.

(** [\s], [\n], and the identifier [[a-zA-Z_][a-zA-Z0-9_]*]. *)
Definition ws : charset := cset [CSpace].
Definition newline : re := Lit [nl].
Definition ident : re :=
  Seq (Chr (cset [rng "a" "z"; rng "A" "Z"; chr "_"]))
      (star (cset [rng "a" "z"; rng "A" "Z"; rng "0" "9"; chr "_"])).

Definition txt (s : string) : titem := TLit (str s).
Definition tnl : titem := TLit [nl].

Definition rule : Type := re * template.

(** ** The rule runner *)

(** [content = re.sub(pattern, replacement, content)] for each rule in turn. *)
Fixpoint apply_rules `{UnicodeDb} (rs : list rule) (content : buffer)
    : outcome buffer :=
  match rs with
  | [] => Return content
  | (r, tpl) :: rs' =>
      content' ← re_sub r tpl content;
      apply_rules rs' content'
  end.

(** ** Files and printed output *)

(** What a program prints and writes is logged in order. *)
Inductive event : Type :=
| Printed (line : string)
| Written (file_path : string) (content : buffer).

(** What a path can name that cannot be read as text: a directory, a file
    whose bytes are not UTF-8, a file the process may not open. *)
Inductive other : Type :=
| Directory
| NotUtf8
| NoAccess.

(** [files] holds the paths that can be read as text, each with the text
    that reading it in text mode yields (decoded, with the line ends already
    translated); [others] says what stands behind a path that holds no
    text, and is looked at for such paths only. *)
Record world : Type := World {
  files : gmap string buffer;
  others : gmap string other;
  trace : list event
}.

(** What stops a read of [file_path], if anything does. *)
Definition blocked (file_path : string) (w : world) : option other :=
  match files w !! file_path with
  | Some _ => None
  | None => others w !! file_path
  end.

(** [os.path.exists(file_path)] *)
Definition path_exists (file_path : string) (w : world) : bool :=
  bool_decide (is_Some (files w !! file_path))
  || bool_decide (is_Some (others w !! file_path)).

(** What [open] or [read] raises on a path that holds no text. *)
Definition read_error (k : other) (file_path : string) : exn :=
  match k with
  | Directory => IsADirectoryError file_path
  | NotUtf8 => UnicodeDecodeError
  | NoAccess => PermissionError file_path
  end.

(** [open(file_path, 'r', encoding='utf-8')] and [f.read()] *)
Definition read_text (file_path : string) (w : world) : outcome buffer :=
  match files w !! file_path with
  | Some content => Return content
  | None =>
      match others w !! file_path with
      | Some k => Raise (read_error k file_path)
      | None => Raise (FileNotFoundError file_path)
      end
  end.

(** [open(file_path, 'w', encoding='utf-8')] and [f.write(content)]; the
    scripts write a path only after they have read it as text. *)
Definition write_text (file_path : string) (content : buffer) (w : world)
    : world :=
  World (<[file_path := content]> (files w)) (others w)
        (trace w ++ [Written file_path content]).

Definition print (line : string) (w : world) : world :=
  World (files w) (others w) (trace w ++ [Printed line]).

Module ComprehensiveFix.

(** "([a-zA-Z_][a-zA-Z0-9_]*:\s*[^,\n{}]+)\n(\s+)([a-zA-Z_][a-zA-Z0-9_]*:)"
    replaced by "\1,\n\2\3". *)
Definition missing_comma : rule :=
  (seq [ Group 1 (seq [ident; lit ":"; star ws;
                       plus (cnot [chr ","; CChar nl; chr "{"; chr "}"])]);
         newline;
         Group 2 (plus ws);
         Group 3 (seq [ident; lit ":"]) ],
   [TRef 1; txt ","; tnl; TRef 2; TRef 3]).

(** "(\}|\))\n(\s+)([a-zA-Z_][a-zA-Z0-9_]*:)" replaced by "\1,\n\2\3". *)
Definition comma_after_close : rule :=
  (seq [ Group 1 (alt [lit "}"; lit ")"]);
         newline;
         Group 2 (plus ws);
         Group 3 (seq [ident; lit ":"]) ],
   [TRef 1; txt ","; tnl; TRef 2; TRef 3]).

(** ",\s*\)" replaced by ")". *)
Definition comma_before_close : rule :=
  (seq [lit ","; star ws; lit ")"], [txt ")"]).

(** "(\w+\([^)]*),\s*$" with re.MULTILINE, replaced by "\1)". *)
Definition missing_close : rule :=
  (seq [ Group 1 (seq [plus (cset [CWord]); lit "("; star (cnot [chr ")"])]);
         lit ","; star ws; EolM ],
   [TRef 1; txt ")"]).

(** "\{,\s*" replaced by "{ ". *)
Definition brace_comma : rule :=
  (seq [lit "{,"; star ws], [txt "{ "]).

(** ",\s*updatedAt:\s*new Date\(\)\}" replaced by
    ", updatedAt: new Date() }". *)
Definition updated_at : rule :=
  (seq [lit ","; star ws; lit "updatedAt:"; star ws; lit "new Date()}"],
   [txt ", updatedAt: new Date() }"]).

(** "\)\s*\)\s*\)" replaced by "))". *)
Definition triple_close : rule :=
  (seq [lit ")"; star ws; lit ")"; star ws; lit ")"], [txt "))"]).

Definition rules : list rule :=
  [ missing_comma; comma_after_close; comma_before_close; missing_close;
    brace_comma; updated_at; triple_close ].

(** The seven rewrites of [fix_file_syntax], in order. *)
Definition fix_content `{UnicodeDb} (content : buffer) : outcome buffer :=
  apply_rules rules content.

(** [fix_file_syntax(file_path)]: the returned verdict and the world left. *)
Definition fix_file_syntax `{UnicodeDb} (file_path : string) (w : world)
    : outcome (bool * world) :=
  if negb (path_exists file_path w) then mret (false, w)
  else
    content ← read_text file_path w;
    let original_content := content in
    content ← fix_content content;
    if bool_decide (content ≠ original_content) then
      mret (true, write_text file_path content w)
    else mret (false, w).

(** The loop over [all_files], carrying [fixed_count]. *)
Fixpoint fix_all `{UnicodeDb} (all_files : list string) (fixed_count : nat)
    (w : world) : outcome (nat * world) :=
  match all_files with
  | [] => mret (fixed_count, w)
  | file_path :: rest =>
      '(fixed, w') ← fix_file_syntax file_path w;
      if fixed : bool then
        fix_all rest (S fixed_count) (print ("Fixed: " +:+ file_path) w')
      else fix_all rest fixed_count w'
  end.

(** The module body; [api_files] and [lib_files] are what the two [glob.glob]
    calls returned. *)
Definition main `{UnicodeDb} (api_files lib_files : list string) (w : world)
    : outcome world :=
  let all_files := api_files ++ lib_files in
  '(fixed_count, w') ← fix_all all_files 0 w;
  mret (print (String "010" "Total files fixed: " +:+ pretty fixed_count) w').

End ComprehensiveFix.

Module FixSyntaxErrors.

(** "([a-zA-Z_][a-zA-Z0-9_]*\([^)]*),\s*\n" replaced by "\1)\n". *)
Definition call_param : rule :=
  (seq [ Group 1 (seq [ident; lit "("; star (cnot [chr ")"])]);
         lit ","; star ws; newline ],
   [TRef 1; txt ")"; tnl]).

(** "([\s\t]*[a-zA-Z_][a-zA-Z0-9_]*:\s*[^,\n]+),\s*$" with re.MULTILINE,
    replaced by "\1". *)
Definition trailing_comma : rule :=
  (seq [ Group 1 (seq [star (cset [CSpace; CChar tab]); ident; lit ":";
                       star ws; plus (cnot [chr ","; CChar nl])]);
         lit ","; star ws; EolM ],
   [TRef 1]).

(** "new Date\(," replaced by "new Date(),". *)
Definition new_date : rule :=
  (lit "new Date(,", [txt "new Date(),"]).

(** "\{,\s*updatedAt" replaced by "{ updatedAt". *)
Definition brace_updated_at : rule :=
  (seq [lit "{,"; star ws; lit "updatedAt"], [txt "{ updatedAt"]).

(** "([^{]),\s*updatedAt:\s*new Date\(\)\}" replaced by
    "\1, updatedAt: new Date() }". *)
Definition value_updated_at : rule :=
  (seq [ Group 1 (Chr (cnot [chr "{"]));
         lit ","; star ws; lit "updatedAt:"; star ws; lit "new Date()}" ],
   [TRef 1; txt ", updatedAt: new Date() }"]).

(** "\$\{([^}]+),\s*updatedAt:\s*new Date\(\)\}" replaced by "${\1}". *)
Definition template_literal : rule :=
  (seq [ lit "${"; Group 1 (plus (cnot [chr "}"]));
         lit ","; star ws; lit "updatedAt:"; star ws; lit "new Date()}" ],
   [txt "${"; TRef 1; txt "}"]).

(** "(getPaginationMeta\([^)]+limit),\s*\n" replaced by "\1)\n". *)
Definition pagination_limit : rule :=
  (seq [ Group 1 (seq [lit "getPaginationMeta("; plus (cnot [chr ")"]);
                       lit "limit"]);
         lit ","; star ws; newline ],
   [TRef 1; txt ")"; tnl]).

Definition rules : list rule :=
  [ call_param; trailing_comma; new_date; brace_updated_at; value_updated_at;
    template_literal; pagination_limit ].

Definition files_to_fix : list string :=
  [ "src/app/api/admin/reports/route.ts";
    "src/app/api/admin/system-health/route.ts";
    "src/app/api/admin/users/route.ts";
    "src/app/api/ai/chat/route.ts";
    "src/app/api/audit/events/route.ts";
    "src/app/api/audit/reports/route.ts";
    "src/app/api/auth/mfa/manage/route.ts";
    "src/app/api/auth/mfa/setup/route.ts";
    "src/app/api/auth/register/route.ts";
    "src/app/api/auth/reset-password/route.ts";
    "src/app/api/auth/sessions/route.ts";
    "src/app/api/auth/verify-email/route.ts";
    "src/app/api/community/chat-rooms/route.ts";
    "src/app/api/community/comments/route.ts" ]%string.

(** [fix_syntax_errors(content)]: the seven rewrites in order. *)
Definition fix_syntax_errors `{UnicodeDb} (content : buffer) : outcome buffer :=
  apply_rules rules content.

(** The body of the loop over [files_to_fix]. *)
Definition process_file `{UnicodeDb} (file_path : string) (w : world)
    : outcome world :=
  if path_exists file_path w then
    let w := print ("Processing " +:+ file_path +:+ "...") w in
    content ← read_text file_path w;
    fixed_content ← fix_syntax_errors content;
    if bool_decide (content ≠ fixed_content) then
      let w := write_text file_path fixed_content w in
      mret (print ("  Fixed syntax errors in " +:+ file_path) w)
    else mret (print ("  No changes needed in " +:+ file_path) w)
  else mret (print ("  File not found: " +:+ file_path) w).

Fixpoint process_files `{UnicodeDb} (l : list string) (w : world)
    : outcome world :=
  match l with
  | [] => mret w
  | file_path :: rest =>
      w' ← process_file file_path w;
      process_files rest w'
  end.

Definition main `{UnicodeDb} (w : world) : outcome world :=
  w' ← process_files files_to_fix w;
  mret (print "Done!" w').

End FixSyntaxErrors.

Module FixRemainingSyntax.

(** The replacement shared by the property patterns: [\1\2: \3,\n\4\5:]. *)
Definition property_template : template :=
  [TRef 1; TRef 2; txt ": "; TRef 3; txt ","; tnl; TRef 4; TRef 5; txt ":"].

(** "(\s+)(NAMES):\s*VALUE\s*\n(\s+)([a-zA-Z_][a-zA-Z0-9_]*):" *)
Definition property (names value : re) : re :=
  seq [ Group 1 (plus ws); Group 2 names; lit ":"; star ws; Group 3 value;
        star ws; newline; Group 4 (plus ws); Group 5 ident; lit ":" ].

Definition to_eol : re := plus (cnot [CChar nl; chr ","]).

(** "(\s+)(gte|lte):\s*([a-zA-Z_][a-zA-Z0-9_]*)\s*\n(\s+)(gte|lte):" *)
Definition gte_lte : rule :=
  (seq [ Group 1 (plus ws); Group 2 (alt [lit "gte"; lit "lte"]); lit ":";
         star ws; Group 3 ident; star ws; newline; Group 4 (plus ws);
         Group 5 (alt [lit "gte"; lit "lte"]); lit ":" ],
   property_template).

(** "(\s+)([a-zA-Z_][a-zA-Z0-9_]*):\s*(true|false|null|[a-zA-Z_][a-zA-Z0-9_]*)\s*\n(\s+)([a-zA-Z_][a-zA-Z0-9_]*):" *)
Definition simple_value : rule :=
  (property ident (alt [lit "true"; lit "false"; lit "null"; ident]),
   property_template).

(** "(\}\))\s*\n(\s+)(skip|take|orderBy|where|include):" replaced by
    "\1,\n\2\3:". *)
Definition after_close : rule :=
  (seq [ Group 1 (lit "})"); star ws; newline; Group 2 (plus ws);
         Group 3 (alt [lit "skip"; lit "take"; lit "orderBy"; lit "where";
                       lit "include"]);
         lit ":" ],
   [TRef 1; txt ","; tnl; TRef 2; TRef 3; txt ":"]).

(** "(\s+)(type|dateRange|...|reportId):\s*([^\n,]+)\s*\n(\s+)([a-zA-Z_][a-zA-Z0-9_]*):" *)
Definition object_property : rule :=
  (property
     (alt (map lit
        [ "type"; "dateRange"; "data"; "meta"; "filters"; "schedule";
          "config"; "message"; "reportId" ]%string))
     to_eol,
   property_template).

(** "(\s+)(id|timestamp|...|createdBy):\s*([^\n,]+)\s*\n(\s+)([a-zA-Z_][a-zA-Z0-9_]*):" *)
Definition nested_property : rule :=
  (property
     (alt (map lit
        [ "id"; "timestamp"; "action"; "resource"; "resourceId"; "outcome";
          "details"; "ipAddress"; "userAgent"; "email"; "displayName"; "role";
          "createdAt"; "severityLevel"; "triggerType"; "interventionType";
          "responseTime"; "resolved"; "resolvedAt"; "emergencyContactUsed";
          "userAnonymousId"; "reason"; "evidence"; "duration"; "appealable";
          "appealed"; "expiresAt"; "moderator"; "targetUser"; "detectedAt";
          "type"; "severity"; "context"; "indicators"; "handled"; "handledAt";
          "handledBy"; "actions"; "notes"; "lastLoginAt"; "lastActiveAt";
          "moodEntries"; "journalEntries"; "appointments"; "name";
          "description"; "createdBy" ]%string))
     to_eol,
   property_template).

Definition patterns : list rule :=
  [ gte_lte; simple_value; after_close; object_property; nested_property ].

(** "(\s+where)\s*\n" replaced by "\1,\n". *)
Definition where_line : rule :=
  (seq [Group 1 (seq [plus ws; lit "where"]); star ws; newline],
   [TRef 1; txt ","; tnl]).

(** "(\s+include:\s*\{[^}]+\})\s*\n(\s+)(skip|take|orderBy):" replaced by
    "\1,\n\2\3:". *)
Definition include_block : rule :=
  (seq [ Group 1 (seq [plus ws; lit "include:"; star ws; lit "{";
                       plus (cnot [chr "}"]); lit "}"]);
         star ws; newline; Group 2 (plus ws);
         Group 3 (alt [lit "skip"; lit "take"; lit "orderBy"]); lit ":" ],
   [TRef 1; txt ","; tnl; TRef 2; TRef 3; txt ":"]).

(** The rewrites of the module body, in the order they run. *)
Definition rules : list rule := patterns ++ [where_line; include_block].

Definition file_path : string := "src/app/api/admin/reports/route.ts".

(** The rewrites applied to [content] between reading and writing. *)
Definition fix_content `{UnicodeDb} (content : buffer) : outcome buffer :=
  content ← apply_rules patterns content;
  content ← re_sub where_line.1 where_line.2 content;
  re_sub include_block.1 include_block.2 content.

(** The module body: no existence check and no comparison before writing. *)
Definition main `{UnicodeDb} (w : world) : outcome world :=
  content ← read_text file_path w;
  content ← fix_content content;
  let w := write_text file_path content w in
  mret (print ("Fixed remaining syntax errors in " +:+ file_path) w).

End FixRemainingSyntax.


(** ** Total readings of the rule runner *)

(** The suffixes of a buffer: the positions at which [re.sub] tries a match. *)
Fixpoint tails (s : buffer) : list buffer :=
  s :: match s with
       | [] => []
       | _ :: s' => tails s'
       end.

Definition rule_ok (rt : rule) : bool := forallb (titem_ok rt.1) rt.2.

(** What [apply_rules] returns when no template is refused. *)
Definition run_rules `{UnicodeDb} (rs : list rule) (content : buffer) : buffer :=
  fold_left (fun b rt => sub_go rt.1 rt.2 0 b) rs content.

Definition all_rules : list rule :=
  ComprehensiveFix.rules ++ FixSyntaxErrors.rules ++ FixRemainingSyntax.rules.

(** The pure function each script computes on a buffer. *)
Definition comprehensive_pass `{UnicodeDb} : buffer -> buffer :=
  run_rules ComprehensiveFix.rules.
Definition syntax_errors_pass `{UnicodeDb} : buffer -> buffer :=
  run_rules FixSyntaxErrors.rules.
Definition remaining_pass `{UnicodeDb} : buffer -> buffer :=
  run_rules FixRemainingSyntax.rules.

(** The files a program wrote, in order. *)
Definition writes (w : world) : list (string * buffer) :=
  omap (fun e => match e with
                 | Written p content => Some (p, content)
                 | Printed _ => None
                 end) (trace w).

(** An interpreter whose table knows no alphanumeric beyond ASCII; it only
    serves to run the model on concrete inputs. *)
Definition ascii_only : UnicodeDb := fun _ => false.

(** The example buffers of the scenarios. *)
Definition brace_comma_input : buffer := str "{, updatedAt: new Date()}".
Definition sibling_pair : buffer :=
  str "gte: startDate" ++ [nl] ++ str "lte: endDate".
Definition sibling_pair_indented : buffer :=
  str "  gte: startDate" ++ [nl] ++ str "  lte: endDate".
Definition sibling_pair_fixed : buffer :=
  str "  gte: startDate," ++ [nl] ++ str "  lte: endDate".
Definition stray_comma_input : buffer := str "foo(bar," ++ [nl] ++ str ")".

(** The store a loop leaves: the pass applied once per listing. *)
Definition altered (f : buffer -> buffer) (l : list string)
    (m : gmap string buffer) : gmap string buffer :=
  foldl (fun m p => alter f p m) m l.

(** Example stores: the report route holding well-formed text, and two
    stores holding the same text under different names. *)
Definition clean_world : world :=
  World {[ FixRemainingSyntax.file_path := str "{ a: 1, b: 2 }" ]} ∅ [].

Definition api_world : world :=
  World {[ "src/app/api/a.ts" := str "f(x,)";
           "src/app/api/b.ts" := str "{, y" ]} ∅ [].



(** ** What a pattern matches *)

(** [matches r s caps s' caps']: the pattern [r] matches a prefix of [s] and
    leaves [s'], taking the captured groups from [caps] to [caps'].  The
    relation says which matches exist; [mtch] says which one is found. *)
Inductive matches `{UnicodeDb}
    : re -> buffer -> captures -> buffer -> captures -> Prop :=
| matches_eps s caps : matches Eps s caps s caps
| matches_lit p s caps : matches (Lit p) (p ++ s) caps s caps
| matches_chr cs x s caps :
    cs_mem cs x = true -> matches (Chr cs) (x :: s) caps s caps
| matches_rep min cs w s caps :
    Forall (fun x => cs_mem cs x = true) w -> (min <= length w)%nat ->
    matches (Rep min cs) (w ++ s) caps s caps
| matches_seq r1 r2 s caps s1 caps1 s2 caps2 :
    matches r1 s caps s1 caps1 -> matches r2 s1 caps1 s2 caps2 ->
    matches (Seq r1 r2) s caps s2 caps2
| matches_alt_l r1 r2 s caps s' caps' :
    matches r1 s caps s' caps' -> matches (Alt r1 r2) s caps s' caps'
| matches_alt_r r1 r2 s caps s' caps' :
    matches r2 s caps s' caps' -> matches (Alt r1 r2) s caps s' caps'
| matches_group n r s caps s' caps' :
    matches r s caps s' caps' ->
    matches (Group n r) s caps s' ((n, span s s') :: caps')
| matches_eol s caps : at_eol s = true -> matches EolM s caps s caps.

(** Whether every match of a pattern holds one of the characters [cs]:
    a literal that has one, on every branch of an alternation. *)
Fixpoint needs (cs : list char) (r : re) : bool :=
  match r with
  | Lit p => existsb (fun x => existsb (N.eqb x) cs) p
  | Seq r1 r2 => needs cs r1 || needs cs r2
  | Alt r1 r2 => needs cs r1 && needs cs r2
  | Group _ r1 => needs cs r1
  | Eps | Chr _ | Rep _ _ | EolM => false
  end.

(** ** Lines and property lines *)

Definition comma : char := ch ",".
Definition colon : char := ch ":".

(** The lines of a buffer, as [content.split('\n')] gives them. *)
Fixpoint lines (s : buffer) : list buffer :=
  match s with
  | [] => [[]]
  | x :: s' =>
      if x =? nl then [] :: lines s'
      else match lines s' with
           | l :: ls => (x :: l) :: ls
           | [] => [[x]]
           end
  end.

Definition is_ident_start (x : char) : bool :=
  in_range (ch "a") (ch "z") x || in_range (ch "A") (ch "Z") x
  || (x =? ch "_").

Definition is_ident_char (x : char) : bool :=
  is_ident_start x || in_range (ch "0") (ch "9") x.

Fixpoint drop_while (f : char -> bool) (s : buffer) : buffer :=
  match s with
  | [] => []
  | x :: s' => if f x then drop_while f s' else s
  end.

(** A value that is not empty and holds no comma, then the comma that ends
    the line, blanks after it apart: [back] is the text after the colon,
    read from the end of the line. *)
Definition value_then_comma (back : buffer) : bool :=
  match drop_while is_space back with
  | x :: y :: v =>
      (x =? comma) && forallb (fun z => negb (z =? comma)) (y :: v)
  | _ => false
  end.

(** A line of the form [identifier: value,] whose value holds no comma:
    indentation, an identifier, a colon, the value, and the comma that ends
    the line. *)
Definition property_line_with_comma (l : buffer) : bool :=
  match drop_while is_space l with
  | x :: l' =>
      is_ident_start x &&
      match drop_while is_ident_char l' with
      | y :: value => (y =? colon) && value_then_comma (rev value)
      | [] => false
      end
  | [] => false
  end.

(** An identifier, a colon, a value that is not empty and holds neither comma
    nor newline, a comma, and blanks: how a property line ends. *)
Definition comma_ended_property (t : buffer) : Prop :=
  exists (x : char) (i v w : buffer),
    t = x :: i ++ colon :: v ++ comma :: w /\
    is_ident_start x = true /\
    Forall (fun y => is_ident_char y = true) i /\
    v <> [] /\
    Forall (fun y => y <> comma /\ y <> nl) v /\
    Forall (fun y => is_space y = true /\ y <> nl) w.

(** The trailing-comma rule of [fix_syntax_errors] on its own. *)
Definition strip_trailing_commas `{UnicodeDb} (s : buffer) : buffer :=
  sub_go FixSyntaxErrors.trailing_comma.1 FixSyntaxErrors.trailing_comma.2 0 s.

(** A run of [n] blanks. *)
Definition spaces (n : nat) : buffer := repeat (ch " ") n.

(** Neither comma, newline, brace nor parenthesis. *)
Definition is_plain (y : char) : bool :=
  negb (existsb (N.eqb y) [comma; nl; ch "{"; ch "}"; ch "("; ch ")"]).

(** A buffer of [n] closing parentheses. *)
Definition rparens (n : nat) : buffer := repeat (ch ")") n.

(** ** What a run printed *)

(** The lines a program printed, in order. *)
Definition printed (w : world) : list string :=
  omap (fun e => match e with
                 | Printed line => Some line
                 | Written _ _ => None
                 end) (trace w).

(** The line [comprehensive_fix] prints for a file it wrote. *)
Definition fixed_line (pc : string * buffer) : string := "Fixed: " +:+ pc.1.

(** ** What a rule can add *)

(** How often a character stands in a buffer. *)
Fixpoint count_char (c : char) (s : buffer) : nat :=
  match s with
  | [] => O
  | x :: s' => ((if N.eqb x c then 1 else 0) + count_char c s')%nat
  end.

(** A pattern without capturing groups. *)
Fixpoint group_free (r : re) : bool :=
  match r with
  | Seq r1 r2 | Alt r1 r2 => group_free r1 && group_free r2
  | Group _ _ => false
  | _ => true
  end.

(** No group inside a group. *)
Fixpoint flat (r : re) : bool :=
  match r with
  | Seq r1 r2 | Alt r1 r2 => flat r1 && flat r2
  | Group _ r1 => group_free r1
  | _ => true
  end.

(** The [c]s that every match consumes outside its groups, at least. *)
Fixpoint lit_count (c : char) (r : re) : nat :=
  match r with
  | Lit p => count_char c p
  | Seq r1 r2 => (lit_count c r1 + lit_count c r2)%nat
  | Alt r1 r2 => Nat.min (lit_count c r1) (lit_count c r2)
  | _ => O
  end.

(** The characters every match consumes, at least. *)
Fixpoint min_len (r : re) : nat :=
  match r with
  | Lit p => length p
  | Chr _ => 1%nat
  | Rep min _ => min
  | Seq r1 r2 => (min_len r1 + min_len r2)%nat
  | Alt r1 r2 => Nat.min (min_len r1) (min_len r2)
  | Group _ r1 => min_len r1
  | Eps | EolM => O
  end.

(** The text a template writes itself, and the groups it refers to. *)
Fixpoint tpl_text (t : template) : buffer :=
  match t with
  | [] => []
  | TLit s :: t' => s ++ tpl_text t'
  | TRef _ :: t' => tpl_text t'
  end.

Fixpoint tpl_refs (t : template) : list nat :=
  match t with
  | [] => []
  | TLit _ :: t' => tpl_refs t'
  | TRef n :: t' => n :: tpl_refs t'
  end.

(** A rule whose matches are not empty, whose groups do not nest and whose
    template names each group at most once. *)
Definition linear_rule (rt : rule) : bool :=
  (1 <=? min_len rt.1)%nat && flat rt.1
  && bool_decide (NoDup (tpl_refs rt.2)).

(** A rule that cannot add a [c]: it is linear and writes no more [c]s than
    the literals of its pattern consume. *)
Definition adds_no (c : char) (rt : rule) : bool :=
  linear_rule rt
  && (count_char c (tpl_text rt.2) <=? lit_count c rt.1)%nat.

(** The characters the templates of some rules write. *)
Definition tpl_alphabet (rs : list rule) : buffer :=
  concat (map (fun rt : rule => tpl_text rt.2) rs).

(** Rules that can add no character but those of [cs]. *)
Definition add_only (cs : list char) (rs : list rule) : bool :=
  forallb linear_rule rs
  && forallb (fun c => existsb (N.eqb c) cs || forallb (adds_no c) rs)
       (tpl_alphabet rs).

(** What some captures hold of [c], and what the groups [ns] hold. *)
Fixpoint caps_count (c : char) (caps : captures) : nat :=
  match caps with
  | [] => O
  | (_, v) :: caps' => (count_char c v + caps_count c caps')%nat
  end.

Fixpoint refs_count (c : char) (ns : list nat) (caps : captures) : nat :=
  match ns with
  | [] => O
  | n :: ns' => (count_char c (group_of n caps) + refs_count c ns' caps)%nat
  end.

(** * Properties *)

Section Runner.
Context `{UnicodeDb}.

Lemma re_sub_ok (r : re) (tpl : template) (s : buffer) :
  rule_ok (r, tpl) = true -> re_sub r tpl s = Return (sub_go r tpl 0 s).
Proof. unfold rule_ok, re_sub; simpl. intros ->. reflexivity. Qed.

Lemma apply_rules_ok (rs : list rule) (s : buffer) :
  forallb rule_ok rs = true -> apply_rules rs s = Return (run_rules rs s).
Proof.
  revert s. induction rs as [|[r tpl] rs IH]; intros s Hok; simpl in *.
  - reflexivity.
  - apply andb_prop in Hok as [Hr Hrs].
    rewrite (re_sub_ok _ _ _ Hr). simpl. apply IH, Hrs.
Qed.

Lemma comprehensive_ok (s : buffer) :
  ComprehensiveFix.fix_content s = Return (comprehensive_pass s).
Proof. apply apply_rules_ok. reflexivity. Qed.

Lemma syntax_errors_ok (s : buffer) :
  FixSyntaxErrors.fix_syntax_errors s = Return (syntax_errors_pass s).
Proof. apply apply_rules_ok. reflexivity. Qed.

Lemma run_rules_app (rs1 rs2 : list rule) (s : buffer) :
  run_rules (rs1 ++ rs2) s = run_rules rs2 (run_rules rs1 s).
Proof. apply fold_left_app. Qed.

Lemma remaining_ok (s : buffer) :
  FixRemainingSyntax.fix_content s = Return (remaining_pass s).
Proof.
  unfold FixRemainingSyntax.fix_content, remaining_pass, FixRemainingSyntax.rules.
  rewrite (apply_rules_ok FixRemainingSyntax.patterns) by reflexivity.
  simpl mbind. unfold mbind, outcome_bind.
  rewrite !re_sub_ok by reflexivity.
  rewrite run_rules_app. reflexivity.
Qed.

(** One step of the scan, by cases on the match attempt. *)
Lemma sub_go_nomatch (r : re) (tpl : template) (c : char) (s : buffer) :
  match_at r (c :: s) false = None ->
  sub_go r tpl 0 (c :: s) = c :: sub_go r tpl 0 s.
Proof. intros Hm. simpl. rewrite Hm. reflexivity. Qed.

Lemma sub_go_nil_nomatch (r : re) (tpl : template) :
  match_at r [] false = None -> sub_go r tpl 0 [] = [].
Proof. intros Hm. simpl. rewrite Hm. reflexivity. Qed.

Lemma sub_go_noop (r : re) (tpl : template) (s : buffer) :
  Forall (fun u => match_at r u false = None) (tails s) ->
  sub_go r tpl 0 s = s.
Proof.
  induction s as [|c s IH]; intros Hall.
  - apply sub_go_nil_nomatch. inversion Hall; assumption.
  - inversion Hall as [|u us Hhd Htl]; subst.
    rewrite sub_go_nomatch by assumption.
    f_equal. apply IH, Htl.
Qed.

End Runner.

(** ** Totality of the rules *)

Lemma forallb_rule_ok (P : rule -> Prop) (rs : list rule) :
  (forall rt, rule_ok rt = true -> P rt) ->
  forallb rule_ok rs = true -> forall rt, rt ∈ rs -> P rt.
Proof.
  intros HP Hall rt Hin. apply HP.
  rewrite forallb_forall in Hall. apply Hall.
  apply list_elem_of_In, Hin.
Qed.

(** C9. Every rule of the three scripts, applied to any buffer, returns a
    buffer (it never raises), and returns the buffer itself when its pattern
    matches at no position; hence each script's whole sequence of rewrites
    returns a buffer as well. *)
Theorem rule_totality `{UnicodeDb} (s : buffer) :
  (forall rt : rule, rt ∈ all_rules ->
     exists s', re_sub rt.1 rt.2 s = Return s' /\
       (Forall (fun u => match_at rt.1 u false = None) (tails s) -> s' = s))
  /\ ComprehensiveFix.fix_content s = Return (comprehensive_pass s)
  /\ FixSyntaxErrors.fix_syntax_errors s = Return (syntax_errors_pass s)
  /\ FixRemainingSyntax.fix_content s = Return (remaining_pass s).
Proof.
  split; [|auto using comprehensive_ok, syntax_errors_ok, remaining_ok].
  apply forallb_rule_ok; [|reflexivity].
  intros [r tpl] Hok. exists (sub_go r tpl 0 s). split.
  - apply re_sub_ok, Hok.
  - apply sub_go_noop.
Qed.

Lemma rule_totality_witness :
  @re_sub ascii_only FixSyntaxErrors.new_date.1 FixSyntaxErrors.new_date.2
    (str "{ a: 1, b: 2 }") = Return (str "{ a: 1, b: 2 }").
Proof.
  destruct (proj1 (@rule_totality ascii_only (str "{ a: 1, b: 2 }"))
              FixSyntaxErrors.new_date) as [s' [Hs' Hsame]].
  - unfold all_rules. rewrite !elem_of_app. right; left.
    unfold FixSyntaxErrors.rules. rewrite !elem_of_cons. auto.
  - rewrite Hs'. f_equal. apply Hsame.
    vm_compute. repeat constructor.
Defined.

(** ** The example scenarios *)

(** C4, amended. On [{, updatedAt: new Date()}] a pass of either rule set
    returns [{ updatedAt: new Date()}]: the comma and the blank after the
    brace become one blank, and nothing is put before the closing brace. *)
Theorem scenario_brace_comma `{UnicodeDb} :
  ComprehensiveFix.fix_content brace_comma_input
    = Return (str "{ updatedAt: new Date()}")
  /\ FixSyntaxErrors.fix_syntax_errors brace_comma_input
    = Return (str "{ updatedAt: new Date()}").
Proof. split; vm_compute; reflexivity. Qed.

Lemma scenario_brace_comma_as_stated_fails :
  exists out : buffer,
    out <> str "{ updatedAt: new Date() }" /\
    forall udb : UnicodeDb,
      @ComprehensiveFix.fix_content udb brace_comma_input = Return out /\
      @FixSyntaxErrors.fix_syntax_errors udb brace_comma_input = Return out.
Proof.
  exists (str "{ updatedAt: new Date()}"). split.
  - vm_compute. discriminate.
  - intros udb. split; vm_compute; reflexivity.
Qed.

(** C6, amended. On [new Date(,] with nothing after the comma,
    [fix_syntax_errors] returns [new Date(),]; [comprehensive_fix] returns
    [new Date()], its missing-parenthesis rule putting the parenthesis in
    place of the comma; and when a newline follows the comma
    [fix_syntax_errors] returns [new Date()] too, its first rule rewriting
    the call before the [new Date] rule is reached. *)
Theorem scenario_new_date `{UnicodeDb} :
  FixSyntaxErrors.fix_syntax_errors (str "new Date(,")
    = Return (str "new Date(),")
  /\ ComprehensiveFix.fix_content (str "new Date(,")
    = Return (str "new Date()")
  /\ FixSyntaxErrors.fix_syntax_errors (str "new Date(," ++ [nl])
    = Return (str "new Date()" ++ [nl]).
Proof. repeat split; vm_compute; reflexivity. Qed.

Lemma scenario_new_date_as_stated_fails :
  str "new Date()" <> str "new Date()," /\
  str "new Date()" ++ [nl] <> str "new Date()," ++ [nl] /\
  forall udb : UnicodeDb,
    @ComprehensiveFix.fix_content udb (str "new Date(,")
      = Return (str "new Date()") /\
    @FixSyntaxErrors.fix_syntax_errors udb (str "new Date(," ++ [nl])
      = Return (str "new Date()" ++ [nl]).
Proof.
  split; [vm_compute; discriminate|].
  split; [vm_compute; discriminate|].
  intros udb. split; vm_compute; reflexivity.
Qed.

(** C7, amended. On [foo(bar,] followed by a newline and [)], a pass of
    [comprehensive_fix] returns exactly [foo(bar)]; a pass of
    [fix_syntax_errors] returns [foo(bar)], the newline and the old closing
    parenthesis, because its first rule closes the call at the end of the
    line. *)
Theorem scenario_stray_comma `{UnicodeDb} :
  ComprehensiveFix.fix_content stray_comma_input = Return (str "foo(bar)")
  /\ FixSyntaxErrors.fix_syntax_errors stray_comma_input
    = Return (str "foo(bar)" ++ [nl] ++ str ")").
Proof. split; vm_compute; reflexivity. Qed.

Lemma scenario_stray_comma_as_stated_fails :
  exists out : buffer,
    out <> str "foo(bar)" /\
    forall udb : UnicodeDb,
      @FixSyntaxErrors.fix_syntax_errors udb stray_comma_input = Return out.
Proof.
  exists (str "foo(bar)" ++ [nl] ++ str ")"). split.
  - vm_compute. discriminate.
  - intros udb. vm_compute. reflexivity.
Qed.

(** ** The drivers on the file store *)

Section Drivers.
Context `{UnicodeDb}.

Lemma bind_return {A B : Type} (a : A) (f : A -> outcome B) :
  (Return a ≫= f) = f a.
Proof. reflexivity. Qed.

Lemma path_exists_some (p : string) (w : world) (c : buffer) :
  files w !! p = Some c -> path_exists p w = true.
Proof.
  intros Hc. unfold path_exists. rewrite bool_decide_eq_true_2 by eauto.
  reflexivity.
Qed.

Lemma path_exists_none (p : string) (w : world) :
  files w !! p = None -> others w !! p = None -> path_exists p w = false.
Proof.
  intros Hc Ho. unfold path_exists. rewrite Hc, Ho.
  rewrite !bool_decide_eq_false_2 by (intros [x Hx]; discriminate).
  reflexivity.
Qed.

Lemma path_exists_other (p : string) (w : world) (k : other) :
  others w !! p = Some k -> path_exists p w = true.
Proof.
  intros Ho. unfold path_exists.
  rewrite (bool_decide_eq_true_2 (is_Some (others w !! p))) by eauto.
  apply orb_true_r.
Qed.

Lemma blocked_some (p : string) (w : world) (k : other) :
  blocked p w = Some k -> files w !! p = None /\ others w !! p = Some k.
Proof.
  unfold blocked. destruct (files w !! p); [discriminate|]. auto.
Qed.

Lemma blocked_text (p : string) (w : world) (c : buffer) :
  files w !! p = Some c -> blocked p w = None.
Proof. intros Hp. unfold blocked. rewrite Hp. reflexivity. Qed.

(** Whether a read is stopped depends on which paths hold text, not on the
    text. *)
Lemma blocked_same_dom (q : string) (w w' : world) :
  dom (files w') = dom (files w) -> others w' = others w ->
  blocked q w' = blocked q w.
Proof.
  intros Hdom Ho. unfold blocked. rewrite Ho.
  destruct (files w !! q) as [c|] eqn:Hq.
  - assert (q ∈ dom (files w')) as [c' ->]%elem_of_dom
      by (rewrite Hdom; apply elem_of_dom; eauto).
    reflexivity.
  - assert (q ∉ dom (files w')) as ->%not_elem_of_dom
      by (rewrite Hdom; apply not_elem_of_dom, Hq).
    reflexivity.
Qed.

Lemma writes_print (line : string) (w : world) :
  writes (print line w) = writes w.
Proof.
  unfold writes, print; simpl. rewrite omap_app. simpl. apply app_nil_r.
Qed.

Lemma writes_write_text (p : string) (c : buffer) (w : world) :
  writes (write_text p c w) = writes w ++ [(p, c)].
Proof. unfold writes, write_text; simpl. rewrite omap_app. reflexivity. Qed.

(** [fix_file_syntax] by cases on the store. *)
Lemma fix_file_syntax_missing (p : string) (w : world) :
  files w !! p = None -> others w !! p = None ->
  ComprehensiveFix.fix_file_syntax p w = Return (false, w).
Proof.
  intros Hp Ho. unfold ComprehensiveFix.fix_file_syntax.
  rewrite (path_exists_none _ _ Hp Ho). reflexivity.
Qed.

Lemma fix_file_syntax_present (p : string) (w : world) (c : buffer) :
  files w !! p = Some c ->
  ComprehensiveFix.fix_file_syntax p w =
    Return (if bool_decide (comprehensive_pass c ≠ c)
            then (true, write_text p (comprehensive_pass c) w)
            else (false, w)).
Proof.
  intros Hp. unfold ComprehensiveFix.fix_file_syntax, read_text.
  rewrite (path_exists_some _ _ _ Hp), Hp. simpl negb. cbv iota.
  rewrite bind_return, comprehensive_ok, bind_return.
  destruct (bool_decide _); reflexivity.
Qed.

Lemma fix_file_syntax_blocked (p : string) (w : world) (k : other) :
  blocked p w = Some k ->
  ComprehensiveFix.fix_file_syntax p w = Raise (read_error k p).
Proof.
  intros [Hp Ho]%blocked_some.
  unfold ComprehensiveFix.fix_file_syntax, read_text.
  rewrite (path_exists_other _ _ _ Ho), Hp, Ho. reflexivity.
Qed.

Lemma process_file_missing (p : string) (w : world) :
  files w !! p = None -> others w !! p = None ->
  FixSyntaxErrors.process_file p w
    = Return (print ("  File not found: " +:+ p) w).
Proof.
  intros Hp Ho. unfold FixSyntaxErrors.process_file.
  rewrite (path_exists_none _ _ Hp Ho). reflexivity.
Qed.

Lemma process_file_present (p : string) (w : world) (c : buffer) :
  files w !! p = Some c ->
  FixSyntaxErrors.process_file p w =
    Return (if bool_decide (c ≠ syntax_errors_pass c)
            then print ("  Fixed syntax errors in " +:+ p)
                   (write_text p (syntax_errors_pass c)
                      (print ("Processing " +:+ p +:+ "...") w))
            else print ("  No changes needed in " +:+ p)
                   (print ("Processing " +:+ p +:+ "...") w)).
Proof.
  intros Hp. unfold FixSyntaxErrors.process_file, read_text.
  rewrite (path_exists_some _ _ _ Hp). simpl files. rewrite Hp.
  rewrite bind_return, syntax_errors_ok, bind_return.
  destruct (bool_decide _); reflexivity.
Qed.

Lemma process_file_blocked (p : string) (w : world) (k : other) :
  blocked p w = Some k ->
  FixSyntaxErrors.process_file p w = Raise (read_error k p).
Proof.
  intros [Hp Ho]%blocked_some.
  unfold FixSyntaxErrors.process_file, read_text.
  rewrite (path_exists_other _ _ _ Ho). simpl files. simpl others.
  rewrite Hp, Ho. reflexivity.
Qed.


Lemma alter_text (f : buffer -> buffer) (p : string) (c : buffer)
    (m : gmap string buffer) :
  m !! p = Some c -> <[p := f c]> m = alter f p m.
Proof.
  intros Hp. apply map_eq. intros q. destruct (decide (q = p)) as [->|Hq].
  - rewrite lookup_insert_eq, lookup_alter_eq, Hp. reflexivity.
  - rewrite lookup_insert_ne, lookup_alter_ne by auto. reflexivity.
Qed.

Lemma alter_same (f : buffer -> buffer) (p : string)
    (m : gmap string buffer) :
  (forall c, m !! p = Some c -> f c = c) -> m = alter f p m.
Proof.
  intros Hf. apply map_eq. intros q. destruct (decide (q = p)) as [->|Hq].
  - rewrite lookup_alter_eq. destruct (m !! p) as [c|] eqn:Hp; simpl;
      [rewrite (Hf c eq_refl)|]; reflexivity.
  - rewrite lookup_alter_ne by auto. reflexivity.
Qed.

(** What a call that returns has done to the store: the pass is applied to
    the file when there is one. *)
Lemma fix_file_syntax_alter (p : string) (w : world) (b : bool) (w' : world) :
  ComprehensiveFix.fix_file_syntax p w = Return (b, w') ->
  files w' = alter comprehensive_pass p (files w) /\ others w' = others w.
Proof.
  destruct (files w !! p) as [c|] eqn:Hp.
  - rewrite (fix_file_syntax_present _ _ _ Hp).
    destruct (bool_decide_reflect (comprehensive_pass c ≠ c)) as [Hne|Heq];
      intros [= <- <-].
    + split; [|reflexivity]. apply alter_text, Hp.
    + split; [|reflexivity]. apply dec_stable in Heq.
      apply alter_same. intros c' Hc'. congruence.
  - destruct (others w !! p) as [k|] eqn:Ho.
    + rewrite (fix_file_syntax_blocked p w k); [discriminate|].
      unfold blocked. rewrite Hp. exact Ho.
    + rewrite (fix_file_syntax_missing _ _ Hp Ho). intros [= <- <-].
      split; [|reflexivity]. apply alter_same. intros c' Hc'. congruence.
Qed.

Lemma process_file_alter (p : string) (w w' : world) :
  FixSyntaxErrors.process_file p w = Return w' ->
  files w' = alter syntax_errors_pass p (files w) /\ others w' = others w.
Proof.
  destruct (files w !! p) as [c|] eqn:Hp.
  - rewrite (process_file_present _ _ _ Hp).
    destruct (bool_decide_reflect (c ≠ syntax_errors_pass c)) as [Hne|Heq];
      intros [= <-].
    + split; [|reflexivity]. apply (alter_text syntax_errors_pass), Hp.
    + split; [|reflexivity]. apply dec_stable in Heq.
      apply alter_same. intros c' Hc'. congruence.
  - destruct (others w !! p) as [k|] eqn:Ho.
    + rewrite (process_file_blocked p w k); [discriminate|].
      unfold blocked. rewrite Hp. exact Ho.
    + rewrite (process_file_missing _ _ Hp Ho). intros [= <-].
      split; [|reflexivity]. apply alter_same. intros c' Hc'. congruence.
Qed.

(** A call returns unless the read is stopped. *)
Lemma fix_file_syntax_returns (p : string) (w : world) :
  blocked p w = None ->
  exists b w', ComprehensiveFix.fix_file_syntax p w = Return (b, w').
Proof.
  unfold blocked. destruct (files w !! p) as [c|] eqn:Hp; intros Ho.
  - rewrite (fix_file_syntax_present _ _ _ Hp).
    destruct (bool_decide _); eauto.
  - rewrite (fix_file_syntax_missing _ _ Hp Ho). eauto.
Qed.

Lemma process_file_returns (p : string) (w : world) :
  blocked p w = None ->
  exists w', FixSyntaxErrors.process_file p w = Return w'.
Proof.
  unfold blocked. destruct (files w !! p) as [c|] eqn:Hp; intros Ho.
  - rewrite (process_file_present _ _ _ Hp). eauto.
  - rewrite (process_file_missing _ _ Hp Ho). eauto.
Qed.

Lemma altered_dom (f : buffer -> buffer) (l : list string)
    (m : gmap string buffer) :
  dom (altered f l m) = dom m.
Proof.
  revert m. induction l as [|p l IH]; intros m; simpl; [reflexivity|].
  fold (altered f l (alter f p m)). rewrite IH. apply dom_alter_L.
Qed.

(** What a loop that returns has done to the store. *)
Lemma fix_all_store (l : list string) :
  forall (n : nat) (w : world) (n' : nat) (w' : world),
    ComprehensiveFix.fix_all l n w = Return (n', w') ->
    files w' = altered comprehensive_pass l (files w) /\
    others w' = others w.
Proof.
  induction l as [|p l IH]; intros n w n' w'; simpl.
  - intros [= <- <-]. split; reflexivity.
  - destruct (ComprehensiveFix.fix_file_syntax p w) as [[b w1]|e] eqn:Hcall;
      [|discriminate].
    apply fix_file_syntax_alter in Hcall as [Hfiles Hothers].
    rewrite bind_return. destruct b; intros Hrun;
      apply IH in Hrun as [Hf Ho]; simpl in Hf, Ho;
      rewrite Hf, Ho, Hfiles, Hothers; split; reflexivity.
Qed.

Lemma process_files_store (l : list string) :
  forall (w w' : world),
    FixSyntaxErrors.process_files l w = Return w' ->
    files w' = altered syntax_errors_pass l (files w) /\
    others w' = others w.
Proof.
  induction l as [|p l IH]; intros w w'; simpl.
  - intros [= <-]. split; reflexivity.
  - destruct (FixSyntaxErrors.process_file p w) as [w1|e] eqn:Hcall;
      [|discriminate].
    apply process_file_alter in Hcall as [Hfiles Hothers].
    rewrite bind_return. intros Hrun. apply IH in Hrun as [Hf Ho].
    rewrite Hf, Ho, Hfiles, Hothers. split; reflexivity.
Qed.



Lemma altered_not_listed (f : buffer -> buffer) (l : list string)
    (m : gmap string buffer) (p : string) :
  p ∉ l -> altered f l m !! p = m !! p.
Proof.
  revert m. induction l as [|q l IH]; intros m Hp; simpl.
  - reflexivity.
  - apply not_elem_of_cons in Hp as [Hpq Hpl].
    unfold altered in *. rewrite IH by assumption.
    apply lookup_alter_ne. auto.
Qed.

Lemma altered_listed_once (f : buffer -> buffer) (l : list string)
    (m : gmap string buffer) (p : string) :
  NoDup l -> p ∈ l -> altered f l m !! p = f <$> m !! p.
Proof.
  revert m. induction l as [|q l IH]; intros m Hnd Hp.
  - inversion Hp.
  - apply NoDup_cons in Hnd as [Hq Hnd].
    simpl. destruct (decide (p = q)) as [->|Hpq].
    + fold (altered f l (alter f q m)).
      rewrite altered_not_listed by assumption.
      apply lookup_alter_eq.
    + apply elem_of_cons in Hp as [Hp|Hp]; [contradiction|].
      fold (altered f l (alter f q m)).
      rewrite IH by assumption. rewrite lookup_alter_ne by auto. reflexivity.
Qed.

Lemma altered_none (f : buffer -> buffer) (l : list string)
    (m : gmap string buffer) (p : string) :
  m !! p = None -> altered f l m !! p = None.
Proof.
  revert m. induction l as [|q l IH]; intros m Hp; simpl; [assumption|].
  fold (altered f l (alter f q m)). apply IH.
  destruct (decide (p = q)) as [->|Hpq].
  - rewrite lookup_alter_eq, Hp. reflexivity.
  - rewrite lookup_alter_ne by auto. assumption.
Qed.

Lemma fix_all_app (l1 l2 : list string) (n : nat) (w : world) :
  ComprehensiveFix.fix_all (l1 ++ l2) n w =
    ComprehensiveFix.fix_all l1 n w ≫=
      (fun r => ComprehensiveFix.fix_all l2 r.1 r.2).
Proof.
  revert n w. induction l1 as [|p l1 IH]; intros n w; simpl.
  - reflexivity.
  - destruct (ComprehensiveFix.fix_file_syntax p w) as [[b w1]|e];
      [|reflexivity].
    rewrite !bind_return. destruct b; apply IH.
Qed.

Lemma process_files_app (l1 l2 : list string) (w : world) :
  FixSyntaxErrors.process_files (l1 ++ l2) w =
    FixSyntaxErrors.process_files l1 w ≫= FixSyntaxErrors.process_files l2.
Proof.
  revert w. induction l1 as [|p l1 IH]; intros w; simpl.
  - reflexivity.
  - destruct (FixSyntaxErrors.process_file p w) as [w1|e]; [|reflexivity].
    rewrite !bind_return. apply IH.
Qed.

(** A loop returns when no read is stopped. *)
Lemma fix_all_finishes (l : list string) :
  forall (n : nat) (w : world),
    Forall (fun p => blocked p w = None) l ->
    exists n' w', ComprehensiveFix.fix_all l n w = Return (n', w').
Proof.
  induction l as [|p l IH]; intros n w Hall; simpl; [eauto|].
  apply Forall_cons in Hall as [Hp Hall].
  destruct (fix_file_syntax_returns p w Hp) as (b & w1 & Hcall).
  rewrite Hcall, bind_return.
  assert (Forall (fun q => blocked q w1 = None) l) as Hall1.
  { eapply Forall_impl; [exact Hall|]. intros q Hq. simpl in Hq.
    rewrite <- Hq. apply fix_file_syntax_alter in Hcall as [Hf Ho].
    apply blocked_same_dom; [|exact Ho]. rewrite Hf. apply dom_alter_L. }
  destruct b; apply IH; exact Hall1.
Qed.

Lemma process_files_finishes (l : list string) :
  forall (w : world),
    Forall (fun p => blocked p w = None) l ->
    exists w', FixSyntaxErrors.process_files l w = Return w'.
Proof.
  induction l as [|p l IH]; intros w Hall; simpl; [eauto|].
  apply Forall_cons in Hall as [Hp Hall].
  destruct (process_file_returns p w Hp) as (w1 & Hcall).
  rewrite Hcall, bind_return. apply IH.
  eapply Forall_impl; [exact Hall|]. intros q Hq. simpl in Hq.
  rewrite <- Hq. apply process_file_alter in Hcall as [Hf Ho].
  apply blocked_same_dom; [|exact Ho]. rewrite Hf. apply dom_alter_L.
Qed.



End Drivers.

(** ** Persistence *)




(** ** Missing files *)

(** C3, amended. A listed path with nothing behind it is skipped: the call
    of [fix_file_syntax] returns [False] without reading, writing or
    printing, and the loop of [comprehensive_fix] over a listing with the
    path has the outcome of the loop over the listing without it, count
    included, so the path is not reported; the loop body of
    [fix_syntax_errors], which keeps no count, prints its "File not found"
    line and goes on with the remaining paths.  A run that returns leaves
    nothing behind the path. *)
Theorem missing_file_skipped `{UnicodeDb} (l1 l2 : list string) (p : string)
    (n : nat) (w : world) :
  files w !! p = None -> others w !! p = None ->
  ComprehensiveFix.fix_file_syntax p w = Return (false, w)
  /\ ComprehensiveFix.fix_all (l1 ++ p :: l2) n w
     = ComprehensiveFix.fix_all (l1 ++ l2) n w
  /\ (forall n' w',
        ComprehensiveFix.fix_all (l1 ++ p :: l2) n w = Return (n', w') ->
        path_exists p w' = false)
  /\ FixSyntaxErrors.process_file p w
     = Return (print ("  File not found: " +:+ p) w)
  /\ FixSyntaxErrors.process_files (l1 ++ p :: l2) w
     = (w1 ← FixSyntaxErrors.process_files l1 w;
        FixSyntaxErrors.process_files l2
          (print ("  File not found: " +:+ p) w1))
  /\ (forall w',
        FixSyntaxErrors.process_files (l1 ++ p :: l2) w = Return w' ->
        path_exists p w' = false).
Proof.
  intros Hp Ho.
  split; [apply fix_file_syntax_missing; assumption|].
  split; [|split; [|split; [apply process_file_missing; assumption|split]]].
  - rewrite !fix_all_app.
    destruct (ComprehensiveFix.fix_all l1 n w) as [[n1 w1]|e] eqn:Hrun;
      [|reflexivity].
    rewrite !bind_return. simpl.
    apply fix_all_store in Hrun as [Hf1 Ho1].
    rewrite fix_file_syntax_missing; [reflexivity| |congruence].
    rewrite Hf1. apply altered_none, Hp.
  - intros n' w' [Hf' Ho']%fix_all_store. apply path_exists_none.
    + rewrite Hf'. apply altered_none, Hp.
    + congruence.
  - rewrite process_files_app.
    destruct (FixSyntaxErrors.process_files l1 w) as [w1|e] eqn:Hrun;
      [|reflexivity].
    rewrite !bind_return. simpl.
    apply process_files_store in Hrun as [Hf1 Ho1].
    rewrite process_file_missing; [reflexivity| |congruence].
    rewrite Hf1. apply altered_none, Hp.
  - intros w' [Hf' Ho']%process_files_store. apply path_exists_none.
    + rewrite Hf'. apply altered_none, Hp.
    + congruence.
Qed.

Lemma missing_file_skipped_witness :
  @ComprehensiveFix.fix_all ascii_only
    (["src/app/api/a.ts"] ++ "src/app/api/gone.ts" :: ["src/app/api/b.ts"])
    0 api_world
  = @ComprehensiveFix.fix_all ascii_only
      (["src/app/api/a.ts"] ++ ["src/app/api/b.ts"]) 0 api_world.
Proof.
  apply (@missing_file_skipped ascii_only ["src/app/api/a.ts"]
           ["src/app/api/b.ts"] "src/app/api/gone.ts" 0 api_world);
    reflexivity.
Defined.

Lemma missing_file_not_reported :
  path_exists "src/lib/gone.ts" (World ∅ ∅ []) = false /\
  forall udb : UnicodeDb,
    @ComprehensiveFix.main udb [] ["src/lib/gone.ts"] (World ∅ ∅ [])
    = Return (World ∅ ∅ [Printed (String "010" "Total files fixed: 0")]).
Proof. split; [reflexivity|]. intros udb. reflexivity. Qed.

(** ** Purity *)



(** ** The matcher against the matching relation *)

Section Matcher.
Context `{UnicodeDb}.

Lemma strip_prefix_some (p s s' : buffer) :
  strip_prefix p s = Some s' <-> s = p ++ s'.
Proof.
  revert s. induction p as [|a p IH]; intros s; simpl.
  - split; congruence.
  - destruct s as [|x s]; [split; discriminate|].
    destruct (N.eqb_spec a x) as [->|Hne].
    + rewrite IH. split; congruence.
    + split; [discriminate|]. intros Heq. congruence.
Qed.

Lemma span_app (m rest : buffer) : span (m ++ rest) rest = m.
Proof.
  unfold span. rewrite length_app.
  replace (length m + length rest - length rest)%nat with (length m) by lia.
  apply take_app_length.
Qed.

(** Whatever [rep] finds is a run of the class, long enough, followed by
    what the continuation accepts. *)
Lemma rep_sound (cs : charset) (s : buffer) :
  forall (min : nat) (k : buffer -> result) (x : buffer * captures),
    rep cs min s k = Some x ->
    exists w s', s = w ++ s' /\ Forall (fun y => cs_mem cs y = true) w /\
                 (min <= length w)%nat /\ k s' = Some x.
Proof.
  induction s as [|a s IH]; intros min k x Hrep; simpl in Hrep.
  - destruct min; [|discriminate].
    exists [], []. repeat split; auto.
  - assert (Hstop : match min with O => k (a :: s) | S _ => None end = Some x ->
              exists w s', a :: s = w ++ s' /\
                Forall (fun y => cs_mem cs y = true) w /\
                (min <= length w)%nat /\ k s' = Some x).
    { destruct min; [|discriminate]. intros Hk.
      exists [], (a :: s). repeat split; auto. }
    destruct (cs_mem cs a) eqn:Ha; [|auto].
    destruct (rep cs (Nat.pred min) s k) as [r|] eqn:Hrec; [|auto].
    injection Hrep as ->.
    destruct (IH _ _ _ Hrec) as (w & s' & -> & Hw & Hmin & Hk).
    exists (a :: w), s'. repeat split; auto. simpl. lia.
Qed.

(** A run of the class that the continuation accepts makes [rep] succeed. *)
Lemma rep_complete (cs : charset) (w s : buffer) :
  forall (min : nat) (k : buffer -> result),
    Forall (fun y => cs_mem cs y = true) w -> (min <= length w)%nat ->
    is_Some (k s) -> is_Some (rep cs min (w ++ s) k).
Proof.
  induction w as [|a w IH]; intros min k Hw Hmin Hk; simpl in *.
  - assert (min = O) as -> by lia.
    destruct s as [|b s]; simpl; [assumption|].
    destruct (cs_mem cs b); [|assumption].
    destruct (rep cs 0 s k); [eauto|assumption].
  - inversion Hw as [|? ? Ha Hw']; subst. rewrite Ha.
    destruct (IH (Nat.pred min) k Hw' ltac:(lia) Hk) as [r ->]. eauto.
Qed.

Theorem mtch_sound (r : re) :
  forall (s : buffer) (caps : captures) (k : buffer -> captures -> result)
         (x : buffer * captures),
    mtch r s caps k = Some x ->
    exists s' caps', matches r s caps s' caps' /\ k s' caps' = Some x.
Proof.
  induction r as [|p|cs|min cs|r1 IH1 r2 IH2|r1 IH1 r2 IH2|n r IH|];
    intros s caps k x Hm; simpl in Hm.
  - eauto using matches_eps.
  - destruct (strip_prefix p s) as [s'|] eqn:Hp; [|discriminate].
    apply strip_prefix_some in Hp as ->. eauto using matches_lit.
  - destruct s as [|a s]; [discriminate|].
    destruct (cs_mem cs a) eqn:Ha; [|discriminate].
    eauto using matches_chr.
  - apply rep_sound in Hm as (w & s' & -> & Hw & Hmin & Hk).
    eauto using matches_rep.
  - apply IH1 in Hm as (s1 & caps1 & Hm1 & Hm).
    apply IH2 in Hm as (s2 & caps2 & Hm2 & Hk).
    eauto using matches_seq.
  - destruct (mtch r1 s caps k) as [y|] eqn:Hl.
    + injection Hm as ->.
      apply IH1 in Hl as (s' & caps' & Hm' & Hk). eauto using matches_alt_l.
    + apply IH2 in Hm as (s' & caps' & Hm' & Hk). eauto using matches_alt_r.
  - apply IH in Hm as (s' & caps' & Hm' & Hk). eauto using matches_group.
  - destruct (at_eol s) eqn:He; [|discriminate]. eauto using matches_eol.
Qed.

Theorem mtch_complete (r : re) (s : buffer) (caps : captures) (s' : buffer)
    (caps' : captures) :
  matches r s caps s' caps' ->
  forall k : buffer -> captures -> result,
    is_Some (k s' caps') -> is_Some (mtch r s caps k).
Proof.
  induction 1 as [s caps|p s caps|cs a s caps Ha|min cs w s caps Hw Hmin
                 |r1 r2 s caps s1 caps1 s2 caps2 _ IH1 _ IH2
                 |r1 r2 s caps s' caps' _ IH|r1 r2 s caps s' caps' _ IH
                 |n r s caps s' caps' _ IH|s caps He];
    intros k Hk; simpl.
  - assumption.
  - rewrite (proj2 (strip_prefix_some p (p ++ s) s) eq_refl). assumption.
  - rewrite Ha. assumption.
  - apply rep_complete; assumption.
  - apply IH1, IH2, Hk.
  - destruct (IH k Hk) as [y ->]. eauto.
  - destruct (mtch r1 s caps k); [eauto|]. apply IH, Hk.
  - apply IH. assumption.
  - rewrite He. assumption.
Qed.

(** A match attempt succeeds exactly on what the pattern matches. *)
Lemma match_at_sound (r : re) (s rest : buffer) (caps : captures) :
  match_at r s false = Some (rest, caps) -> matches r s [] rest caps.
Proof.
  intros Hm. apply mtch_sound in Hm as (s' & caps' & Hm & Hk).
  simpl in Hk. injection Hk as -> ->. exact Hm.
Qed.

Lemma match_at_complete (r : re) (s rest : buffer) (caps : captures) :
  matches r s [] rest caps -> is_Some (match_at r s false).
Proof.
  intros Hm. apply (mtch_complete _ _ _ _ _ Hm). simpl. eauto.
Qed.

(** The scan past a match. *)
Lemma sub_go_skip (r : re) (tpl : template) (m rest : buffer) :
  sub_go r tpl (length m) (m ++ rest) = sub_go r tpl 0 rest.
Proof. induction m as [|a m IH]; [reflexivity|exact IH]. Qed.

Lemma sub_go_match (r : re) (tpl : template) (s m rest : buffer)
    (caps : captures) :
  match_at r s false = Some (rest, caps) -> s = m ++ rest -> m <> [] ->
  sub_go r tpl 0 s = expand tpl caps ++ sub_go r tpl 0 rest.
Proof.
  intros Hm -> Hne. destruct m as [|a m]; [contradiction|].
  simpl app. simpl sub_go. simpl app in Hm. rewrite Hm.
  replace (S (length (m ++ rest)) - length rest)%nat with (S (length m))
    by (rewrite length_app; lia).
  f_equal. apply sub_go_skip.
Qed.

(** What a match consumes is a prefix of the text, and it holds a character
    the pattern needs. *)
Lemma matches_consumes (r : re) (s : buffer) (caps : captures) (s' : buffer)
    (caps' : captures) :
  matches r s caps s' caps' ->
  exists m, s = m ++ s' /\
    forall cs, needs cs r = true -> exists x, x ∈ cs /\ x ∈ m.
Proof.
  induction 1 as [s caps|p s caps|cs0 a s caps Ha|min cs0 w s caps Hw Hmin
                 |r1 r2 s caps s1 caps1 s2 caps2 _ IH1 _ IH2
                 |r1 r2 s caps s' caps' _ IH|r1 r2 s caps s' caps' _ IH
                 |n r s caps s' caps' _ IH|s caps He].
  - exists []. split; [reflexivity|discriminate].
  - exists p. split; [reflexivity|]. simpl. intros cs Hn.
    apply existsb_exists in Hn as (x & Hx & Hcs).
    apply existsb_exists in Hcs as (y & Hy & Hxy).
    apply N.eqb_eq in Hxy as <-.
    exists x. split; apply list_elem_of_In; assumption.
  - exists [a]. split; [reflexivity|discriminate].
  - exists w. split; [reflexivity|discriminate].
  - destruct IH1 as (m1 & -> & Hn1), IH2 as (m2 & -> & Hn2).
    exists (m1 ++ m2). split; [apply app_assoc|].
    simpl. intros cs [Hn|Hn]%orb_prop.
    + destruct (Hn1 _ Hn) as (x & Hx & Hm). exists x.
      rewrite elem_of_app. auto.
    + destruct (Hn2 _ Hn) as (x & Hx & Hm). exists x.
      rewrite elem_of_app. auto.
  - destruct IH as (m & -> & Hn). exists m. split; [reflexivity|].
    simpl. intros cs [Hl _]%andb_prop. auto.
  - destruct IH as (m & -> & Hn). exists m. split; [reflexivity|].
    simpl. intros cs [_ Hr]%andb_prop. auto.
  - destruct IH as (m & -> & Hn). exists m. split; [reflexivity|exact Hn].
  - exists []. split; [reflexivity|discriminate].
Qed.

Lemma tails_suffixes (P : buffer -> Prop) (s : buffer) :
  (forall u, u `suffix_of` s -> P u) -> Forall P (tails s).
Proof.
  induction s as [|a s IH]; intros HP; simpl.
  - constructor; [apply HP; reflexivity|constructor].
  - constructor; [apply HP; reflexivity|].
    apply IH. intros u Hu. apply HP, suffix_cons_r, Hu.
Qed.

(** A rule whose pattern needs a character that the buffer lacks changes
    nothing. *)
Lemma needs_noop (cs : list char) (r : re) (tpl : template) (s : buffer) :
  needs cs r = true -> (forall x, x ∈ cs -> x ∉ s) ->
  sub_go r tpl 0 s = s.
Proof.
  intros Hn Hs. apply sub_go_noop, tails_suffixes.
  intros u [k ->].
  destruct (match_at r u false) as [[rest caps]|] eqn:Hm; [exfalso|reflexivity].
  apply match_at_sound, matches_consumes in Hm as (m & -> & Hneeds).
  destruct (Hneeds _ Hn) as (x & Hx & Hm).
  apply (Hs x Hx). rewrite !elem_of_app. auto.
Qed.

End Matcher.

(** ** Passes that do not reach a fixed point *)

Section Parentheses.
Context `{UnicodeDb}.

Lemma tails_rparens_no_match (r : re) :
  (forall m, match_at r (rparens m) false = None) ->
  forall n, Forall (fun u => match_at r u false = None) (tails (rparens n)).
Proof.
  intros Hr n. induction n as [|n IH].
  - constructor; [apply (Hr 0%nat)|constructor].
  - simpl. constructor; [apply (Hr (S n))|exact IH].
Qed.

(** On a run of parentheses the first six rules of [comprehensive_fix] find
    nothing: each needs a character that is not a closing parenthesis. *)
Lemma rparens_no_match (rt : rule) (m : nat) :
  rt ∈ [ ComprehensiveFix.missing_comma; ComprehensiveFix.comma_after_close;
         ComprehensiveFix.comma_before_close; ComprehensiveFix.missing_close;
         ComprehensiveFix.brace_comma; ComprehensiveFix.updated_at ] ->
  match_at rt.1 (rparens m) false = None.
Proof.
  intros Hin. destruct m as [|[|m]]; unfold rparens; simpl repeat;
    repeat (apply elem_of_cons in Hin as [->|Hin];
            [vm_compute; reflexivity|]);
    inversion Hin.
Qed.

Lemma rparens_untouched (rt : rule) (n : nat) :
  rt ∈ [ ComprehensiveFix.missing_comma; ComprehensiveFix.comma_after_close;
         ComprehensiveFix.comma_before_close; ComprehensiveFix.missing_close;
         ComprehensiveFix.brace_comma; ComprehensiveFix.updated_at ] ->
  sub_go rt.1 rt.2 0 (rparens n) = rparens n.
Proof.
  intros Hin. apply sub_go_noop, tails_rparens_no_match.
  intros m. apply rparens_no_match, Hin.
Qed.

(** The last rule takes three parentheses at a time and leaves two. *)
Lemma triple_close_step (n : nat) :
  sub_go ComprehensiveFix.triple_close.1 ComprehensiveFix.triple_close.2 0
    (rparens (3 + n))
  = rparens 2 ++
    sub_go ComprehensiveFix.triple_close.1 ComprehensiveFix.triple_close.2 0
      (rparens n).
Proof.
  rewrite (sub_go_match _ _ _ (rparens 3) (rparens n) []).
  - reflexivity.
  - vm_compute. reflexivity.
  - reflexivity.
  - discriminate.
Qed.

Lemma triple_close_rparens (k r : nat) :
  (r < 3)%nat ->
  sub_go ComprehensiveFix.triple_close.1 ComprehensiveFix.triple_close.2 0
    (rparens (3 * k + r)) = rparens (2 * k + r).
Proof.
  intros Hr. induction k as [|k IH].
  - destruct r as [|[|[|r]]]; try lia; vm_compute; reflexivity.
  - replace (3 * S k + r)%nat with (3 + (3 * k + r))%nat by lia.
    rewrite triple_close_step, IH. unfold rparens.
    rewrite <- repeat_app. f_equal. lia.
Qed.

Lemma comprehensive_rparens (n : nat) :
  comprehensive_pass (rparens n) = rparens (2 * (n / 3) + n mod 3).
Proof.
  unfold comprehensive_pass, run_rules, ComprehensiveFix.rules.
  cbn [fold_left].
  rewrite !rparens_untouched
    by (rewrite !elem_of_cons; auto 10).
  rewrite (Nat.div_mod_eq n 3) at 1.
  apply triple_close_rparens, Nat.mod_upper_bound. discriminate.
Qed.

End Parentheses.

Lemma rparens_inj (a b : nat) : rparens a = rparens b -> a = b.
Proof.
  intros Heq. apply (f_equal length) in Heq.
  unfold rparens in Heq. rewrite !repeat_length in Heq. exact Heq.
Qed.

(** C1, amended. The output of a changed pass need not be a fixed point.
    A pass of [comprehensive_fix] turns a buffer of [n] closing parentheses
    into one of [2 * (n / 3) + n mod 3]; so from four parentheses on, the
    first pass changes the buffer and the second pass changes it again.
    A pass of [fix_syntax_errors] changes [f(a,] newline [,] newline, and
    changes the result again. *)
Theorem second_pass_may_change `{UnicodeDb} :
  (forall n : nat,
     ComprehensiveFix.fix_content (rparens n)
     = Return (rparens (2 * (n / 3) + n mod 3)))
  /\ (forall n : nat, (4 <= n)%nat ->
        comprehensive_pass (rparens n) <> rparens n /\
        comprehensive_pass (comprehensive_pass (rparens n))
          <> comprehensive_pass (rparens n))
  /\ FixSyntaxErrors.fix_syntax_errors (str "f(a," ++ [nl] ++ str "," ++ [nl])
     = Return (str "f(a," ++ [nl] ++ str ")" ++ [nl])
  /\ FixSyntaxErrors.fix_syntax_errors (str "f(a," ++ [nl] ++ str ")" ++ [nl])
     = Return (str "f(a)" ++ [nl] ++ str ")" ++ [nl]).
Proof.
  split; [|split; [|split; vm_compute; reflexivity]].
  - intros n. rewrite comprehensive_ok, comprehensive_rparens. reflexivity.
  - intros n Hn.
    assert (Hq : (1 <= n / 3)%nat)
      by (apply Nat.div_le_lower_bound; lia).
    pose proof (Nat.div_mod_eq n 3) as Hdm.
    pose proof (Nat.mod_upper_bound n 3 ltac:(discriminate)) as Hr.
    rewrite !comprehensive_rparens.
    set (m := (2 * (n / 3) + n mod 3)%nat) in *.
    assert (Hm : (3 <= m)%nat).
    { subst m. destruct (Nat.eq_dec (n / 3)%nat 1%nat) as [H1|H1]; lia. }
    assert (Hq' : (1 <= m / 3)%nat)
      by (apply Nat.div_le_lower_bound; lia).
    pose proof (Nat.div_mod_eq m 3) as Hdm'.
    split; intros Heq; apply rparens_inj in Heq; lia.
Qed.

Lemma second_pass_may_change_witness :
  @comprehensive_pass ascii_only (rparens 4) <> rparens 4 /\
  @comprehensive_pass ascii_only (@comprehensive_pass ascii_only (rparens 4))
    <> @comprehensive_pass ascii_only (rparens 4).
Proof.
  apply (proj1 (proj2 (@second_pass_may_change ascii_only)) 4%nat). lia.
Defined.

Lemma second_pass_changes_again :
  str ")))" <> str "))))" /\ str "))" <> str ")))" /\
  forall udb : UnicodeDb,
    @ComprehensiveFix.fix_content udb (str "))))") = Return (str ")))") /\
    @ComprehensiveFix.fix_content udb (str ")))") = Return (str "))") /\
    @FixSyntaxErrors.fix_syntax_errors udb
      (str "f(a," ++ [nl] ++ str "," ++ [nl])
    = Return (str "f(a," ++ [nl] ++ str ")" ++ [nl]) /\
    @FixSyntaxErrors.fix_syntax_errors udb
      (str "f(a," ++ [nl] ++ str ")" ++ [nl])
    = Return (str "f(a)" ++ [nl] ++ str ")" ++ [nl]).
Proof.
  split; [vm_compute; discriminate|].
  split; [vm_compute; discriminate|].
  intros udb. repeat split; vm_compute; reflexivity.
Qed.

(** ** The trailing-comma rule of [fix_syntax_errors] *)

(** Inversion of a match of a pattern given by its constructors. *)
Ltac invert_matches :=
  repeat match goal with
  | Hm : matches (Seq _ _) _ _ _ _ |- _ => inversion Hm; subst; clear Hm
  | Hm : matches (Group _ _) _ _ _ _ |- _ => inversion Hm; subst; clear Hm
  | Hm : matches (Lit _) _ _ _ _ |- _ => inversion Hm; subst; clear Hm
  | Hm : matches (Chr _) _ _ _ _ |- _ => inversion Hm; subst; clear Hm
  | Hm : matches (Rep _ _) _ _ _ _ |- _ => inversion Hm; subst; clear Hm
  | Hm : matches EolM _ _ _ _ |- _ => inversion Hm; subst; clear Hm
  end.

Section TrailingComma.
Context `{UnicodeDb}.

Lemma trailing_comma_shape :
  FixSyntaxErrors.trailing_comma.1 =
  Seq (Group 1
         (Seq (Rep 0 (cset [CSpace; CChar tab]))
            (Seq ident
               (Seq (Lit [colon]) (Seq (Rep 0 ws) (Rep 1 (cnot [CChar comma; CChar nl])))))))
      (Seq (Lit [comma]) (Seq (Rep 0 ws) EolM)).
Proof. reflexivity. Qed.

Lemma cs_mem_ws (x : char) : cs_mem ws x = is_space x.
Proof. cbv [cs_mem ws cset negated items existsb citem_mem xorb]. apply orb_false_r. Qed.

Lemma cs_mem_ws_tab (x : char) :
  cs_mem (cset [CSpace; CChar tab]) x = true -> is_space x = true.
Proof.
  cbv [cs_mem cset negated items existsb citem_mem xorb].
  rewrite orb_false_r.
  intros [Hs|Ht]%orb_prop; [assumption|].
  apply N.eqb_eq in Ht as ->. reflexivity.
Qed.

Lemma cs_mem_ident_start (x : char) :
  cs_mem (cset [rng "a" "z"; rng "A" "Z"; chr "_"]) x = is_ident_start x.
Proof.
  cbv [cs_mem cset negated items existsb citem_mem xorb rng chr
       is_ident_start].
  rewrite orb_false_r, orb_assoc. reflexivity.
Qed.

Lemma cs_mem_ident_char (x : char) :
  cs_mem (cset [rng "a" "z"; rng "A" "Z"; rng "0" "9"; chr "_"]) x
  = is_ident_char x.
Proof.
  cbv [cs_mem cset negated items existsb citem_mem xorb rng chr
       is_ident_char is_ident_start].
  rewrite orb_false_r.
  destruct (in_range (ch "a") (ch "z") x), (in_range (ch "A") (ch "Z") x),
    (in_range (ch "0") (ch "9") x), (x =? ch "_"); reflexivity.
Qed.

Lemma cs_mem_value (x : char) :
  cs_mem (cnot [CChar comma; CChar nl]) x = true <-> x <> comma /\ x <> nl.
Proof.
  cbv [cs_mem cnot negated items existsb citem_mem xorb].
  rewrite orb_false_r.
  destruct (N.eqb_spec x comma) as [->|Hc]; simpl.
  - split; [discriminate|]. intros [Hc _]. contradiction.
  - destruct (N.eqb_spec x nl) as [->|Hn]; simpl.
    + split; [discriminate|]. intros [_ Hn]. contradiction.
    + split; auto.
Qed.

Lemma Forall_not_elem (f : char -> bool) (l : buffer) (a : char) :
  Forall (fun y => f y = true) l -> f a = false -> a ∉ l.
Proof.
  intros Hall Ha Hin. rewrite Forall_forall in Hall.
  apply Hall in Hin. congruence.
Qed.

Lemma trailing_comma_match (s rest : buffer) (caps : captures) :
  match_at FixSyntaxErrors.trailing_comma.1 s false = Some (rest, caps) ->
  exists G W,
    s = G ++ comma :: W ++ rest /\
    expand FixSyntaxErrors.trailing_comma.2 caps = G /\
    G <> [] /\ (comma ∉ G) /\ (colon ∈ G) /\
    Forall (fun y => is_space y = true) W /\ at_eol rest = true.
Proof.
  intros Hm. apply match_at_sound in Hm.
  rewrite trailing_comma_shape in Hm. unfold ident, star, plus in Hm.
  invert_matches.
  match goal with
  | |- context [span ?a ?b] =>
      match a with
      | ?w1 ++ ?x :: ?i ++ [colon] ++ ?w0 ++ ?v ++ [comma] ++ ?W ++ rest =>
          exists (w1 ++ x :: i ++ [colon] ++ w0 ++ v), W;
          replace a with ((w1 ++ x :: i ++ [colon] ++ w0 ++ v) ++ b)
            by (repeat (simpl; rewrite <- app_assoc); reflexivity);
          rewrite span_app
      end
  end.
  repeat split.
  - simpl. apply app_nil_r.
  - intros Hnil. apply app_eq_nil in Hnil as [_ Hnil]. discriminate.
  - rewrite !not_elem_of_app, !not_elem_of_cons, !not_elem_of_app.
    repeat split;
      try (eapply Forall_not_elem; [eassumption|vm_compute; reflexivity]).
    + intros <-.
      match goal with
      | Hx : cs_mem _ comma = true |- _ => vm_compute in Hx; discriminate
      end.
    + intros [Heq|Hin]%elem_of_cons; [discriminate|inversion Hin].
  - rewrite !elem_of_app, !elem_of_cons, !elem_of_app. simpl.
    right. right. right. left. apply list_elem_of_here.
  - eapply Forall_impl; [eassumption|].
    intros y Hy. cbv beta in Hy. rewrite cs_mem_ws in Hy. exact Hy.
  - assumption.
Qed.

Lemma trailing_comma_complete (w0 t s_t : buffer) :
  Forall (fun y => is_space y = true) w0 ->
  comma_ended_property t -> at_eol s_t = true ->
  is_Some (match_at FixSyntaxErrors.trailing_comma.1 (w0 ++ t ++ s_t) false).
Proof.
  intros Hw0 (x & i & v & w & -> & Hx & Hi & Hv & Hvc & Hw) Heol.
  eapply (match_at_complete _ _ s_t).
  rewrite trailing_comma_shape. unfold ident, star, plus.
  replace (w0 ++ (x :: i ++ colon :: v ++ comma :: w) ++ s_t)
    with (w0 ++ x :: i ++ [colon] ++ [] ++ v ++ [comma] ++ w ++ s_t)
    by (repeat (simpl; rewrite <- app_assoc); reflexivity).
  eapply matches_seq.
  - eapply matches_group, matches_seq.
    + apply (matches_rep 0 _ w0); [|lia].
      eapply Forall_impl; [exact Hw0|].
      intros y Hy. cbv beta in *.
      cbv [cs_mem cset negated items existsb citem_mem xorb].
      rewrite Hy. reflexivity.
    + eapply matches_seq.
      * eapply matches_seq.
        -- apply matches_chr. rewrite cs_mem_ident_start. exact Hx.
        -- apply (matches_rep 0 _ i); [|lia].
           eapply Forall_impl; [exact Hi|].
           intros y Hy. cbv beta in *. rewrite cs_mem_ident_char. exact Hy.
      * eapply matches_seq.
        -- apply matches_lit.
        -- eapply matches_seq.
           ++ apply (matches_rep 0 _ []); [constructor|simpl; lia].
           ++ apply (matches_rep 1 _ v).
              ** eapply Forall_impl; [exact Hvc|].
                 intros y Hy. cbv beta in *. apply cs_mem_value. exact Hy.
              ** destruct v; [contradiction|simpl; lia].
  - eapply matches_seq.
    + apply matches_lit.
    + eapply matches_seq.
      * apply (matches_rep 0 _ w); [|lia].
        eapply Forall_impl; [exact Hw|].
        intros y [Hy _]. rewrite cs_mem_ws. exact Hy.
      * apply matches_eol. exact Heol.
Qed.

Lemma strip_nil : strip_trailing_commas [] = [].
Proof. reflexivity. Qed.

Lemma strip_nomatch (x : char) (s : buffer) :
  match_at FixSyntaxErrors.trailing_comma.1 (x :: s) false = None ->
  strip_trailing_commas (x :: s) = x :: strip_trailing_commas s.
Proof. apply sub_go_nomatch. Qed.

Lemma strip_match (s rest : buffer) (caps : captures) :
  match_at FixSyntaxErrors.trailing_comma.1 s false = Some (rest, caps) ->
  exists G W,
    s = G ++ comma :: W ++ rest /\
    strip_trailing_commas s = G ++ strip_trailing_commas rest /\
    G <> [] /\ (comma ∉ G) /\ (colon ∈ G) /\
    Forall (fun y => is_space y = true) W /\ at_eol rest = true.
Proof.
  intros Hm.
  destruct (trailing_comma_match _ _ _ Hm)
    as (G & W & Hs & Hexp & Hne & Hcomma & Hcolon & HW & Heol).
  exists G, W. repeat split; try assumption.
  unfold strip_trailing_commas.
  rewrite (sub_go_match _ _ s (G ++ comma :: W) rest caps Hm).
  - rewrite Hexp. reflexivity.
  - rewrite Hs, <- app_assoc. reflexivity.
  - intros Hnil. apply app_eq_nil in Hnil as [_ Hnil]. discriminate.
Qed.

(** After a line end the output is at a line end too. *)
Lemma strip_at_eol (s : buffer) :
  at_eol s = true -> at_eol (strip_trailing_commas s) = true.
Proof.
  intros Heol. destruct s as [|x s]; [reflexivity|].
  destruct (match_at FixSyntaxErrors.trailing_comma.1 (x :: s) false)
    as [[rest caps]|] eqn:Hm.
  - destruct (strip_match _ _ _ Hm) as (G & W & Hs & -> & Hne & _).
    destruct G as [|g G]; [contradiction|].
    simpl in Hs. injection Hs as <- _. exact Heol.
  - rewrite (strip_nomatch _ _ Hm). exact Heol.
Qed.

(** A piece without comma that is followed by a line end cannot overlap a
    text that runs to its comma on one line. *)
Lemma comma_clash (k out u rest : buffer) :
  (comma ∉ k) -> at_eol out = true -> (nl ∉ u) ->
  k ++ out = u ++ comma :: rest -> False.
Proof.
  intros Hk Hout Hu Heq.
  apply app_eq_inv in Heq as [(e & -> & Heq)|(e & -> & Heq)].
  - destruct e as [|y e]; simpl in Heq.
    + subst out. discriminate.
    + injection Heq as <- _. apply Hk.
      rewrite elem_of_app, elem_of_cons. auto.
  - destruct e as [|y e]; simpl in Heq.
    + subst out. discriminate.
    + subst out. simpl in Hout. apply N.eqb_eq in Hout as ->.
      apply Hu. rewrite elem_of_app, elem_of_cons. auto.
Qed.

(** Blanks of the output that run to a line end were blanks of the input
    that run to a line end. *)
Lemma strip_blanks_back (w : buffer) :
  forall s rest : buffer,
    Forall (fun y => is_space y = true /\ y <> nl) w ->
    strip_trailing_commas s = w ++ rest -> at_eol rest = true ->
    exists s_t, s = w ++ s_t /\ at_eol s_t = true.
Proof.
  induction w as [|a w IH]; intros s rest Hw Hout Heol.
  - exists s. split; [reflexivity|]. simpl in Hout.
    destruct s as [|x s]; [reflexivity|].
    destruct (match_at FixSyntaxErrors.trailing_comma.1 (x :: s) false)
      as [[rest0 caps]|] eqn:Hm.
    + destruct (strip_match _ _ _ Hm) as (G & W & Hs & HG & Hne & _).
      destruct G as [|g G]; [contradiction|].
      simpl in Hs. injection Hs as -> _.
      rewrite HG in Hout. subst rest. exact Heol.
    + rewrite (strip_nomatch _ _ Hm) in Hout. subst rest. exact Heol.
  - inversion Hw as [|? ? [Ha Hanl] Hw']; subst.
    destruct s as [|x s]; [discriminate|].
    destruct (match_at FixSyntaxErrors.trailing_comma.1 (x :: s) false)
      as [[rest0 caps]|] eqn:Hm.
    + destruct (strip_match _ _ _ Hm)
        as (G & W & Hs & HG & Hne & Hcomma & Hcolon & HW & Heol0).
      rewrite HG in Hout.
      apply app_eq_inv in Hout as [(e & HGe & Hrest)|(e & Hwe & _)].
      * destruct e as [|y e].
        -- exfalso. rewrite app_nil_r in HGe. subst G.
           rewrite Forall_forall in Hw. apply Hw in Hcolon as [Hsp _].
           discriminate.
        -- rewrite Hs, HGe, <- app_assoc. eexists. split; [reflexivity|].
           subst rest. exact Heol.
      * exfalso. rewrite Hwe in Hw. apply Forall_app in Hw as [HGw _].
        rewrite Forall_forall in HGw. apply HGw in Hcolon as [Hsp _].
        discriminate.
    + rewrite (strip_nomatch _ _ Hm) in Hout. injection Hout as -> Hout.
      destruct (IH _ _ Hw' Hout Heol) as (s_t & -> & Hst).
      exists s_t. split; [reflexivity|exact Hst].
Qed.

(** A text of the output that runs on one line to its comma and then to the
    line end stood like that in the input. *)
Lemma strip_line_end_back (u : buffer) :
  forall s w rest : buffer,
    (nl ∉ u) -> Forall (fun y => is_space y = true /\ y <> nl) w ->
    strip_trailing_commas s = u ++ comma :: w ++ rest -> at_eol rest = true ->
    exists s_t, s = u ++ comma :: w ++ s_t /\ at_eol s_t = true.
Proof.
  induction u as [|a u IH]; intros s w rest Hu Hw Hout Heol;
    (destruct s as [|x s];
     [rewrite strip_nil in Hout; symmetry in Hout;
      apply app_eq_nil in Hout as [_ Hout]; discriminate|]);
    destruct (match_at FixSyntaxErrors.trailing_comma.1 (x :: s) false)
      as [[rest0 caps]|] eqn:Hm.
  - exfalso. destruct (strip_match _ _ _ Hm)
      as (G & W & Hs & HG & Hne & Hcomma & Hcolon & HW & Heol0).
    rewrite HG in Hout.
    exact (comma_clash _ _ _ _ Hcomma (strip_at_eol _ Heol0) Hu Hout).
  - rewrite (strip_nomatch _ _ Hm) in Hout. simpl in Hout.
    injection Hout as -> Hout.
    destruct (strip_blanks_back _ _ _ Hw Hout Heol) as (s_t & -> & Hst).
    exists s_t. split; [reflexivity|exact Hst].
  - exfalso. destruct (strip_match _ _ _ Hm)
      as (G & W & Hs & HG & Hne & Hcomma & Hcolon & HW & Heol0).
    rewrite HG in Hout.
    exact (comma_clash _ _ _ _ Hcomma (strip_at_eol _ Heol0) Hu Hout).
  - rewrite (strip_nomatch _ _ Hm) in Hout. simpl in Hout.
    injection Hout as -> Hout.
    apply not_elem_of_cons in Hu as [_ Hu].
    destruct (IH _ _ _ Hu Hw Hout Heol) as (s_t & -> & Hst).
    exists s_t. split; [reflexivity|exact Hst].
Qed.

Lemma comma_ended_split (t : buffer) :
  comma_ended_property t ->
  exists u w, t = u ++ comma :: w /\ (nl ∉ u) /\
              Forall (fun y => is_space y = true /\ y <> nl) w.
Proof.
  intros (x & i & v & w & -> & Hx & Hi & Hv & Hvc & Hw).
  exists (x :: i ++ colon :: v), w. repeat split.
  - simpl. rewrite <- app_assoc. reflexivity.
  - rewrite not_elem_of_cons, not_elem_of_app, not_elem_of_cons.
    repeat split.
    + intros <-. discriminate.
    + eapply Forall_not_elem; [exact Hi|reflexivity].
    + discriminate.
    + intros Hin. rewrite Forall_forall in Hvc.
      apply Hvc in Hin as [_ Hn]. contradiction.
  - exact Hw.
Qed.

(** No text of the output is a property that runs to its comma and the line
    end. *)
Lemma strip_leaves_no_comma_end (n : nat) :
  forall s pre t rest : buffer,
    (length s <= n)%nat ->
    strip_trailing_commas s = pre ++ t ++ rest ->
    comma_ended_property t -> at_eol rest = true -> False.
Proof.
  induction n as [|n IH]; intros s pre t rest Hlen Hout Ht Heol.
  - destruct s; [|simpl in Hlen; lia].
    destruct Ht as (x & i & v & w & -> & _).
    destruct pre; discriminate.
  - destruct s as [|x s].
    { destruct Ht as (y & i & v & w & -> & _). destruct pre; discriminate. }
    destruct (match_at FixSyntaxErrors.trailing_comma.1 (x :: s) false)
      as [[rest0 caps]|] eqn:Hm.
    + destruct (strip_match _ _ _ Hm)
        as (G & W & Hs & HG & Hne & Hcomma & Hcolon & HW & Heol0).
      rewrite HG in Hout.
      apply app_eq_inv in Hout as [(k & HGk & Hout)|(k & Hpre & Hout)].
      * destruct (comma_ended_split _ Ht) as (u & w & -> & Hu & Hw).
        rewrite <- app_assoc in Hout. simpl in Hout.
        apply (comma_clash k (strip_trailing_commas rest0) u (w ++ rest)).
        -- intros Hin. apply Hcomma. rewrite HGk, elem_of_app. auto.
        -- apply strip_at_eol, Heol0.
        -- exact Hu.
        -- symmetry. exact Hout.
      * apply (IH rest0 k t rest); try assumption.
        apply (f_equal length) in Hs. rewrite !length_app in Hs.
        simpl in Hs, Hlen. rewrite length_app in Hs. lia.
    + rewrite (strip_nomatch _ _ Hm) in Hout.
      destruct pre as [|p pre].
      * simpl in Hout. rewrite <- (strip_nomatch _ _ Hm) in Hout.
        destruct (comma_ended_split _ Ht) as (u & w & Htu & Hu & Hw).
        rewrite Htu, <- app_assoc in Hout. simpl in Hout.
        destruct (strip_line_end_back _ _ _ _ Hu Hw Hout Heol)
          as (s_t & Hs & Hst).
        assert (Hsome : is_Some
                  (match_at FixSyntaxErrors.trailing_comma.1 (t ++ s_t) false))
          by (apply (trailing_comma_complete []); auto).
        replace (t ++ s_t) with (x :: s) in Hsome
          by (rewrite Hs, Htu, <- app_assoc; reflexivity).
        rewrite Hm in Hsome. destruct Hsome as [? Hsome]. discriminate.
      * simpl in Hout. injection Hout as _ Hout.
        apply (IH s pre t rest); try assumption. simpl in Hlen. lia.
Qed.
End TrailingComma.

(** *** Lines of the output *)

Lemma lines_not_nil (s : buffer) : lines s <> [].
Proof.
  destruct s as [|x s]; simpl; [discriminate|].
  destruct (x =? nl); [discriminate|].
  destruct (lines s); discriminate.
Qed.

Lemma lines_head (s : buffer) :
  forall l ls, lines s = l :: ls ->
    exists rest, s = l ++ rest /\ at_eol rest = true /\ (nl ∉ l).
Proof.
  induction s as [|x s IH]; intros l ls Hl; simpl in Hl.
  - injection Hl as <- <-. exists []. repeat split. apply not_elem_of_nil.
  - destruct (N.eqb_spec x nl) as [->|Hx].
    + injection Hl as <- <-. exists (nl :: s). repeat split.
      apply not_elem_of_nil.
    + destruct (lines s) as [|l0 ls0] eqn:Hs; [destruct (lines_not_nil _ Hs)|].
      injection Hl as <- <-.
      destruct (IH _ _ eq_refl) as (rest & -> & Heol & Hnl).
      exists rest. repeat split; [assumption|].
      rewrite not_elem_of_cons. auto.
Qed.

Lemma lines_elem (s : buffer) :
  forall l, l ∈ lines s ->
    exists pre rest, s = pre ++ l ++ rest /\ at_eol rest = true /\ (nl ∉ l).
Proof.
  induction s as [|x s IH]; intros l Hl.
  - simpl in Hl. apply list_elem_of_singleton in Hl as ->.
    exists [], []. repeat split. apply not_elem_of_nil.
  - destruct (lines (x :: s)) as [|l0 ls0] eqn:Hxs;
      [destruct (lines_not_nil _ Hxs)|].
    apply elem_of_cons in Hl as [->|Hl].
    + destruct (lines_head _ _ _ Hxs) as (rest & Hs & Heol & Hnl).
      exists [], rest. auto.
    + simpl in Hxs. destruct (x =? nl).
      * injection Hxs as _ <-.
        destruct (IH _ Hl) as (pre & rest & -> & Heol & Hnl).
        exists (x :: pre), rest. auto.
      * destruct (lines s) as [|l1 ls1] eqn:Hs; [inversion Hxs; subst; inversion Hl|].
        injection Hxs as _ <-.
        destruct (IH l ltac:(rewrite elem_of_cons; auto))
          as (pre & rest & -> & Heol & Hnl).
        exists (x :: pre), rest. auto.
Qed.

Lemma drop_while_split (f : char -> bool) (s : buffer) :
  exists pre, s = pre ++ drop_while f s /\ Forall (fun y => f y = true) pre.
Proof.
  induction s as [|x s (pre & Hs & Hpre)]; simpl.
  - exists []. split; [reflexivity|constructor].
  - destruct (f x) eqn:Hx.
    + exists (x :: pre). split; [simpl; congruence|constructor; assumption].
    + exists []. split; [reflexivity|constructor].
Qed.

(** What the check on a line finds. *)
Lemma property_line_with_comma_sound (l : buffer) :
  property_line_with_comma l = true -> (nl ∉ l) ->
  exists pre t, l = pre ++ t /\ comma_ended_property t.
Proof.
  unfold property_line_with_comma, value_then_comma. intros Hl Hnl.
  destruct (drop_while_split is_space l) as (pre & Hpre & _).
  destruct (drop_while is_space l) as [|x l1]; [discriminate|].
  apply andb_prop in Hl as [Hx Hl].
  destruct (drop_while_split is_ident_char l1) as (i & Hi & Hident).
  destruct (drop_while is_ident_char l1) as [|y value]; [discriminate|].
  apply andb_prop in Hl as [Hy Hl]. apply N.eqb_eq in Hy as ->.
  destruct (drop_while_split is_space (rev value)) as (wr & Hwr & Hblank).
  destruct (drop_while is_space (rev value)) as [|z [|z1 vr]];
    [discriminate|discriminate|].
  apply andb_prop in Hl as [Hz Hvr]. apply N.eqb_eq in Hz as ->.
  assert (Hvalue : value = rev (z1 :: vr) ++ comma :: rev wr).
  { rewrite <- (rev_involutive value), Hwr, rev_app_distr.
    simpl. rewrite <- !app_assoc. reflexivity. }
  exists pre, (x :: i ++ colon :: rev (z1 :: vr) ++ comma :: rev wr).
  split; [rewrite Hpre, Hi, Hvalue at 1; reflexivity|].
  assert (Hin : forall a, a ∈ value -> a ∈ l).
  { intros a Ha. rewrite Hpre, Hi.
    rewrite elem_of_app, elem_of_cons, elem_of_app, elem_of_cons. auto. }
  exists x, i, (rev (z1 :: vr)), (rev wr). repeat split; try assumption.
  - simpl. intros Hnil. apply app_eq_nil in Hnil as [_ Hnil]. discriminate.
  - apply Forall_forall. intros a Ha. split.
    + rewrite forallb_forall in Hvr.
      apply list_elem_of_In, in_rev, Hvr in Ha.
      intros ->. discriminate.
    + intros ->. apply Hnl, Hin. rewrite Hvalue, elem_of_app. auto.
  - apply Forall_forall. intros a Ha. split.
    + rewrite Forall_forall in Hblank. apply Hblank.
      apply list_elem_of_In, in_rev, list_elem_of_In in Ha. exact Ha.
    + intros ->. apply Hnl, Hin.
      rewrite Hvalue, elem_of_app, elem_of_cons. auto.
Qed.

Lemma first_split_unique (a : char) (l1 l2 k1 k2 : buffer) :
  l1 ++ a :: l2 = k1 ++ a :: k2 -> (a ∉ l1) -> (a ∉ k1) ->
  l1 = k1 /\ l2 = k2.
Proof.
  revert k1. induction l1 as [|y l1 IH]; intros k1 Heq Hl Hk.
  - destruct k1 as [|z k1]; simpl in Heq.
    + injection Heq as ->. auto.
    + injection Heq as -> _. exfalso. apply Hk, list_elem_of_here.
  - destruct k1 as [|z k1]; simpl in Heq.
    + injection Heq as -> _. exfalso. apply Hl, list_elem_of_here.
    + injection Heq as -> Heq.
      apply not_elem_of_cons in Hl as [_ Hl].
      apply not_elem_of_cons in Hk as [_ Hk].
      destruct (IH _ Heq Hl Hk) as [-> ->]. auto.
Qed.

Lemma Forall_not_in (P : char -> Prop) (l : buffer) (a : char) :
  Forall P l -> ~ P a -> a ∉ l.
Proof.
  intros Hall Ha Hin. rewrite Forall_forall in Hall. apply Ha, Hall, Hin.
Qed.

Section PropertyLine.
Context `{UnicodeDb}.
Variables (w i v w' : buffer) (x : char).
Hypothesis indent : Forall (fun y => is_space y = true /\ y <> nl) w.
Hypothesis name_start : is_ident_start x = true.
Hypothesis name_rest : Forall (fun y => is_ident_char y = true) i.
Hypothesis value_not_empty : v <> [].
Hypothesis value_chars : Forall (fun y => y <> comma /\ y <> nl) v.
Hypothesis blanks : Forall (fun y => is_space y = true /\ y <> nl) w'.

Lemma property_no_comma : comma ∉ w ++ x :: i ++ colon :: v.
Proof.
  rewrite not_elem_of_app, not_elem_of_cons, not_elem_of_app,
    not_elem_of_cons.
  repeat split.
  - apply (Forall_not_in _ _ _ indent). intros [Hsp _]. discriminate.
  - intros Heq. pose proof name_start as Hs. rewrite <- Heq in Hs.
    discriminate.
  - apply (Forall_not_elem _ _ _ name_rest). reflexivity.
  - discriminate.
  - apply (Forall_not_in _ _ _ value_chars). intros [Hc _]. contradiction.
Qed.

Lemma property_line_no_newline :
  nl ∉ w ++ x :: i ++ colon :: v ++ comma :: w'.
Proof.
  rewrite not_elem_of_app, not_elem_of_cons, not_elem_of_app,
    not_elem_of_cons, not_elem_of_app, not_elem_of_cons.
  repeat split.
  - apply (Forall_not_in _ _ _ indent). intros [_ Hn]. contradiction.
  - intros Heq. pose proof name_start as Hs. rewrite <- Heq in Hs.
    discriminate.
  - apply (Forall_not_elem _ _ _ name_rest). reflexivity.
  - discriminate.
  - apply (Forall_not_in _ _ _ value_chars). intros [_ Hn]. contradiction.
  - discriminate.
  - apply (Forall_not_in _ _ _ blanks). intros [_ Hn]. contradiction.
Qed.

(** The rule on a buffer that is one property line. *)
Lemma strip_property_line :
  strip_trailing_commas (w ++ x :: i ++ colon :: v ++ comma :: w')
  = w ++ x :: i ++ colon :: v.
Proof.
  assert (Hsome : is_Some (match_at FixSyntaxErrors.trailing_comma.1
            (w ++ (x :: i ++ colon :: v ++ comma :: w') ++ []) false)).
  { apply trailing_comma_complete; [| |reflexivity].
    - eapply Forall_impl; [exact indent|]. intros y [Hy _]. exact Hy.
    - exists x, i, v, w'. repeat split; assumption. }
  rewrite app_nil_r in Hsome. destruct Hsome as [[rest caps] Hm].
  destruct (strip_match _ _ _ Hm)
    as (G & W & Hs & -> & Hne & Hcomma & Hcolon & HW & Heol).
  replace (w ++ x :: i ++ colon :: v ++ comma :: w')
    with ((w ++ x :: i ++ colon :: v) ++ comma :: w') in Hs
    by (repeat (simpl; rewrite <- app_assoc); reflexivity).
  apply first_split_unique in Hs as [HG Hrest];
    [|apply property_no_comma|exact Hcomma].
  destruct rest as [|y rest].
  - rewrite strip_nil, app_nil_r. symmetry. exact HG.
  - exfalso. simpl in Heol. apply N.eqb_eq in Heol as ->.
    apply (Forall_not_in _ w' nl blanks); [intros [_ Hn]; contradiction|].
    rewrite Hrest, elem_of_app, elem_of_cons. auto.
Qed.

(** The whole pass of [fix_syntax_errors] on such a buffer: the first rule
    needs a newline, the rules after the trailing-comma rule need a comma. *)
Lemma pass_property_line :
  syntax_errors_pass (w ++ x :: i ++ colon :: v ++ comma :: w')
  = w ++ x :: i ++ colon :: v.
Proof.
  unfold syntax_errors_pass, run_rules, FixSyntaxErrors.rules.
  cbn [fold_left].
  rewrite (needs_noop [nl] FixSyntaxErrors.call_param.1).
  - fold (strip_trailing_commas (w ++ x :: i ++ colon :: v ++ comma :: w')).
    rewrite strip_property_line.
    repeat rewrite (needs_noop [comma] _ _ (w ++ x :: i ++ colon :: v))
      by (try reflexivity;
          intros y ->%list_elem_of_singleton; apply property_no_comma).
    reflexivity.
  - reflexivity.
  - intros y ->%list_elem_of_singleton. apply property_line_no_newline.
Qed.

End PropertyLine.

(** C10. The trailing-comma rule of [fix_syntax_errors], with its end-of-line
    anchor, leaves on every buffer no line of the form [identifier: value,]
    whose value holds no comma: each such line has lost the comma that ended
    it, also where the comma separated the property from the next one; and
    a buffer that is one such line comes out of the whole pass of
    [fix_syntax_errors] without its comma. *)
Theorem trailing_commas_stripped `{UnicodeDb} (s : buffer) :
  re_sub FixSyntaxErrors.trailing_comma.1 FixSyntaxErrors.trailing_comma.2 s
    = Return (strip_trailing_commas s)
  /\ existsb property_line_with_comma (lines (strip_trailing_commas s)) = false
  /\ (forall (w i v w' : buffer) (x : char),
        Forall (fun y => is_space y = true /\ y <> nl) w ->
        is_ident_start x = true ->
        Forall (fun y => is_ident_char y = true) i ->
        v <> [] ->
        Forall (fun y => y <> comma /\ y <> nl) v ->
        Forall (fun y => is_space y = true /\ y <> nl) w' ->
        FixSyntaxErrors.fix_syntax_errors
          (w ++ x :: i ++ colon :: v ++ comma :: w')
        = Return (w ++ x :: i ++ colon :: v))
  /\ FixSyntaxErrors.fix_syntax_errors
       (str "  a: 1," ++ [nl] ++ str "  b: 2" ++ [nl])
     = Return (str "  a: 1" ++ [nl] ++ str "  b: 2" ++ [nl]).
Proof.
  split; [apply re_sub_ok; reflexivity|].
  split; [|split; [|vm_compute; reflexivity]].
  - destruct (existsb _ _) eqn:Hex; [exfalso|reflexivity].
    apply existsb_exists in Hex as (l & Hl & Hline).
    apply list_elem_of_In, lines_elem in Hl
      as (pre & rest & Hout & Heol & Hnl).
    apply property_line_with_comma_sound in Hline as (pre' & t & -> & Ht);
      [|exact Hnl].
    apply (strip_leaves_no_comma_end (length s) s (pre ++ pre') t rest);
      auto.
    rewrite Hout, <- !app_assoc. reflexivity.
  - intros w i v w' x Hw Hx Hi Hv Hvc Hw'.
    rewrite syntax_errors_ok. f_equal. apply pass_property_line; assumption.
Qed.

Lemma trailing_commas_stripped_witness :
  @FixSyntaxErrors.fix_syntax_errors ascii_only (str "  a: 1,")
  = Return (str "  a: 1").
Proof.
  apply (proj1 (proj2 (proj2 (@trailing_commas_stripped ascii_only [])))
           (str "  ") [] (str " 1") [] (ch "a")).
  - repeat constructor; discriminate.
  - reflexivity.
  - constructor.
  - discriminate.
  - repeat constructor; discriminate.
  - constructor.
Defined.

(** ** A missing comma between two property lines *)

Lemma run_prefix (P : char -> bool) (w T B : buffer) (y c b : char) (m : nat) :
  Forall (fun z => P z = true) w -> P y = false -> P c = true -> P b = false ->
  w ++ y :: T = repeat c m ++ b :: B ->
  w = repeat c m /\ y :: T = b :: B.
Proof.
  intros Hw Hy Hc Hb Heq.
  apply app_eq_inv in Heq as [(e & -> & Heq)|(e & Hrun & Heq)].
  - destruct e as [|z e].
    + rewrite app_nil_r. auto.
    + exfalso. simpl in Heq. injection Heq as <- _.
      apply Forall_app in Hw as [_ Hw]. inversion Hw; congruence.
  - destruct e as [|z e].
    + rewrite app_nil_r in Hrun. auto.
    + exfalso. simpl in Heq. injection Heq as -> _.
      assert (Hin : z ∈ repeat c m)
        by (rewrite Hrun, elem_of_app, elem_of_cons; auto).
      apply list_elem_of_In, repeat_spec in Hin. congruence.
Qed.

Lemma single_split_unique (a : char) (l1 l2 k1 k2 : buffer) :
  l1 ++ a :: l2 = k1 ++ a :: k2 -> (a ∉ k1) -> (a ∉ k2) ->
  l1 = k1 /\ l2 = k2.
Proof.
  intros Heq Hk1 Hk2.
  apply app_eq_inv in Heq as [(e & -> & Heq)|(e & -> & Heq)].
  - destruct e as [|z e]; simpl in Heq.
    + injection Heq as ->. rewrite app_nil_r. auto.
    + exfalso. injection Heq as <- ->. apply Hk2.
      rewrite elem_of_app, elem_of_cons. auto.
  - destruct e as [|z e]; simpl in Heq.
    + injection Heq as ->. rewrite app_nil_r. auto.
    + exfalso. injection Heq as -> _. apply Hk1.
      rewrite elem_of_app, elem_of_cons. auto.
Qed.

Lemma is_ident_char_range (y : char) :
  is_ident_char y = true -> 48 <= y <= 122.
Proof.
  unfold is_ident_char, is_ident_start, in_range.
  change (ch "a") with 97; change (ch "z") with 122;
    change (ch "A") with 65; change (ch "Z") with 90;
    change (ch "0") with 48; change (ch "9") with 57;
    change (ch "_") with 95.
  rewrite !orb_true_iff, !andb_true_iff, !N.leb_le, N.eqb_eq. lia.
Qed.

Lemma is_ident_start_char (y : char) :
  is_ident_start y = true -> is_ident_char y = true.
Proof. unfold is_ident_char. intros ->. reflexivity. Qed.

Lemma is_space_range (y : char) : is_space y = true -> y <= 32 \/ 133 <= y.
Proof.
  unfold is_space, unicode_space. cbn [existsb fst snd]. unfold in_range.
  rewrite !orb_true_iff, !andb_true_iff, !N.leb_le.
  intuition (try discriminate; lia).
Qed.

Lemma ident_char_not_space (y : char) :
  is_ident_char y = true -> is_space y = false.
Proof.
  intros Hy%is_ident_char_range.
  destruct (is_space y) eqn:Hs; [|reflexivity].
  apply is_space_range in Hs. lia.
Qed.

Section MissingComma.
Context `{UnicodeDb}.
Variables (n m : nat) (x1 : char) (i1 v1 : buffer) (x2 : char) (i2 r2 : buffer).
Hypothesis name1_start : is_ident_start x1 = true.
Hypothesis name1_rest : Forall (fun y => is_ident_char y = true) i1.
Hypothesis value1_not_empty : v1 <> [].
Hypothesis value1_plain : Forall (fun y => is_plain y = true) v1.
Hypothesis name2_start : is_ident_start x2 = true.
Hypothesis name2_rest : Forall (fun y => is_ident_char y = true) i2.
Hypothesis rest2_plain : Forall (fun y => is_plain y = true) r2.

Lemma missing_comma_shape :
  ComprehensiveFix.missing_comma.1 =
  Seq (Group 1 (Seq (Seq (Chr (cset [rng "a" "z"; rng "A" "Z"; chr "_"]))
                         (Rep 0 (cset [rng "a" "z"; rng "A" "Z"; rng "0" "9"; chr "_"])))
                 (Seq (Lit [colon])
                    (Seq (Rep 0 ws)
                       (Rep 1 (cnot [CChar comma; CChar nl; chr "{"; chr "}"]))))))
    (Seq (Lit [nl])
       (Seq (Group 2 (Rep 1 ws))
          (Group 3 (Seq (Seq (Chr (cset [rng "a" "z"; rng "A" "Z"; chr "_"]))
                         (Rep 0 (cset [rng "a" "z"; rng "A" "Z"; rng "0" "9"; chr "_"])))
                      (Lit [colon]))))).
Proof. reflexivity. Qed.

Lemma plain_value_class (y : char) :
  is_plain y = true ->
  cs_mem (cnot [CChar comma; CChar nl; chr "{"; chr "}"]) y = true.
Proof.
  unfold is_plain.
  cbv [cs_mem cnot negated items existsb citem_mem xorb chr].
  destruct (y =? comma), (y =? nl), (y =? ch "{"), (y =? ch "}");
    simpl; auto.
Qed.

Lemma plain_not (a : char) (l : buffer) :
  is_plain a = false -> Forall (fun y => is_plain y = true) l -> a ∉ l.
Proof.
  intros Ha Hl Hin. rewrite Forall_forall in Hl. apply Hl in Hin. congruence.
Qed.

Lemma ident_chars_lack (a : char) (l : buffer) :
  is_ident_char a = false ->
  Forall (fun y => is_ident_char y = true) l -> a ∉ l.
Proof.
  intros Ha Hl Hin. rewrite Forall_forall in Hl. apply Hl in Hin. congruence.
Qed.

Lemma class_ident_chars (l : buffer) :
  Forall (fun y => cs_mem (cset [rng "a" "z"; rng "A" "Z"; rng "0" "9";
                                 chr "_"]) y = true) l ->
  Forall (fun y => is_ident_char y = true) l.
Proof.
  intros Hl. eapply Forall_impl; [exact Hl|].
  intros y Hy. cbv beta in Hy. rewrite <- cs_mem_ident_char. exact Hy.
Qed.

Lemma spaces_lack (a : char) (k : nat) : a <> ch " " -> a ∉ spaces k.
Proof.
  intros Ha Hin. apply list_elem_of_In, repeat_spec in Hin. contradiction.
Qed.

Lemma span_eq (part rest s : buffer) :
  s = part ++ rest -> span s rest = part.
Proof. intros ->. apply span_app. Qed.

(** The second line holds no newline. *)
Lemma after_newline_one_line (k : nat) :
  nl ∉ spaces k ++ x2 :: i2 ++ colon :: r2.
Proof.
  rewrite not_elem_of_app, not_elem_of_cons, not_elem_of_app,
    not_elem_of_cons.
  repeat split.
  - apply spaces_lack. discriminate.
  - intros Heq. pose proof name2_start as Hs. rewrite <- Heq in Hs.
    discriminate.
  - apply ident_chars_lack; [reflexivity|assumption].
  - discriminate.
  - apply plain_not; [reflexivity|assumption].
Qed.

Lemma missing_comma_found (sp rest : buffer) (caps : captures) (k : nat) :
  sp = spaces k ->
  match_at ComprehensiveFix.missing_comma.1
    (x1 :: i1 ++ colon :: v1 ++ nl :: sp ++ x2 :: i2 ++ colon :: r2) false
  = Some (rest, caps) ->
  rest = r2 /\
  expand ComprehensiveFix.missing_comma.2 caps
  = x1 :: i1 ++ colon :: v1 ++ comma :: nl :: sp ++ x2 :: i2 ++ [colon].
Proof.
  intros Hsp Hm. apply match_at_sound in Hm.
  rewrite missing_comma_shape in Hm.
  invert_matches.
  repeat match goal with
  | Hc : Forall (fun _ => cs_mem (cset [rng "a" "z"; rng "A" "Z";
                                          rng "0" "9"; chr "_"]) _ = true) _
    |- _ => apply class_ident_chars in Hc
  end.
  match goal with
  | Heq : ?w ++ [colon] ++ _ = i1 ++ colon :: _ |- _ =>
      simpl in Heq;
      apply first_split_unique in Heq as [-> Heq];
      [|apply ident_chars_lack; [reflexivity|assumption]
       |apply ident_chars_lack; [reflexivity|assumption]]
  end.
  match goal with
  | Heq : _ ++ _ ++ nl :: _ = v1 ++ nl :: _ |- _ =>
      rewrite app_assoc in Heq;
      apply single_split_unique in Heq as [Hv HQ];
      [|apply plain_not; [reflexivity|assumption]
       |apply after_newline_one_line]
  end.
  apply (run_prefix is_space) in HQ as [-> HQ]; try reflexivity.
  - injection HQ as -> HQ.
    apply first_split_unique in HQ as [-> ->];
      [|apply ident_chars_lack; [reflexivity|assumption]
       |apply ident_chars_lack; [reflexivity|assumption]].
    split; [reflexivity|].
    cbn [expand ComprehensiveFix.missing_comma snd group_of Nat.eqb txt tnl].
    rewrite (span_eq (x1 :: i1 ++ colon :: v1)),
      (span_eq (spaces k)), (span_eq (x2 :: i2 ++ [colon]))
      by (repeat (simpl; rewrite <- app_assoc); reflexivity).
    repeat (simpl; rewrite <- app_assoc). reflexivity.
  - eapply Forall_impl; [eassumption|].
    intros y Hy. cbv beta in Hy. rewrite cs_mem_ws in Hy. exact Hy.
  - match goal with
    | Hx : cs_mem _ ?x = true |- is_space ?x = false =>
        rewrite cs_mem_ident_start in Hx;
        apply ident_char_not_space, is_ident_start_char, Hx
    end.
  - apply ident_char_not_space, is_ident_start_char, name2_start.
Qed.

Lemma missing_comma_exists (k : nat) :
  (1 <= k)%nat ->
  is_Some (match_at ComprehensiveFix.missing_comma.1
    (x1 :: i1 ++ colon :: v1 ++ nl :: spaces k ++ x2 :: i2 ++ colon :: r2)
    false).
Proof.
  intros Hk. eapply (match_at_complete _ _ r2).
  rewrite missing_comma_shape.
  change (x1 :: i1 ++ colon :: v1 ++ nl :: spaces k ++ x2 :: i2 ++ colon :: r2)
    with (x1 :: i1 ++ [colon] ++ [] ++ v1 ++ [nl] ++ spaces k
          ++ x2 :: i2 ++ [colon] ++ r2).
  assert (Hidents : forall l, Forall (fun y => is_ident_char y = true) l ->
            Forall (fun y => cs_mem (cset [rng "a" "z"; rng "A" "Z";
                                           rng "0" "9"; chr "_"]) y = true) l).
  { intros l Hl. eapply Forall_impl; [exact Hl|].
    intros y Hy. cbv beta in *. rewrite cs_mem_ident_char. exact Hy. }
  eapply matches_seq.
  - eapply matches_group, matches_seq.
    + eapply matches_seq.
      * apply matches_chr. rewrite cs_mem_ident_start. exact name1_start.
      * apply (matches_rep 0 _ i1); [auto|lia].
    + eapply matches_seq; [apply matches_lit|].
      eapply matches_seq.
      * apply (matches_rep 0 _ []); [constructor|simpl; lia].
      * apply (matches_rep 1 _ v1).
        -- eapply Forall_impl; [exact value1_plain|].
           intros y Hy. apply plain_value_class, Hy.
        -- destruct v1; [contradiction|simpl; lia].
  - eapply matches_seq; [apply matches_lit|].
    eapply matches_seq.
    + eapply matches_group. apply (matches_rep 1 _ (spaces k)).
      * apply Forall_forall. intros y Hy.
        apply list_elem_of_In, repeat_spec in Hy. subst y. reflexivity.
      * unfold spaces. rewrite repeat_length. exact Hk.
    + eapply matches_group, matches_seq.
      * eapply matches_seq.
        -- apply matches_chr. rewrite cs_mem_ident_start. exact name2_start.
        -- apply (matches_rep 0 _ i2); [auto|lia].
      * apply matches_lit.
Qed.

(** Leading blanks are copied by a rule whose pattern cannot start on one. *)
Lemma sub_go_spaces (r : re) (tpl : template) (k : nat) (s : buffer) :
  (forall u, match_at r (ch " " :: u) false = None) ->
  sub_go r tpl 0 (spaces k ++ s) = spaces k ++ sub_go r tpl 0 s.
Proof.
  intros Hr. induction k as [|k IH]; [reflexivity|].
  change (spaces (S k) ++ s) with (ch " " :: spaces k ++ s).
  rewrite sub_go_nomatch by apply Hr. rewrite IH. reflexivity.
Qed.

Lemma missing_comma_on_pair :
  sub_go ComprehensiveFix.missing_comma.1 ComprehensiveFix.missing_comma.2 0
    (spaces n ++ x1 :: i1 ++ colon :: v1 ++ nl :: spaces (S m)
     ++ x2 :: i2 ++ colon :: r2)
  = spaces n ++ x1 :: i1 ++ colon :: v1 ++ comma :: nl :: spaces (S m)
    ++ x2 :: i2 ++ colon :: r2.
Proof.
  rewrite sub_go_spaces by (intros u; vm_compute; reflexivity).
  f_equal.
  destruct (missing_comma_exists (S m) ltac:(lia)) as [[rest caps] Hm].
  destruct (missing_comma_found _ _ _ _ eq_refl Hm) as [-> Hexp].
  rewrite (sub_go_match _ _ _
             (x1 :: i1 ++ colon :: v1 ++ nl :: spaces (S m) ++ x2 :: i2
              ++ [colon]) r2 caps Hm);
    [|repeat (simpl; rewrite <- app_assoc); reflexivity|discriminate].
  rewrite Hexp, (needs_noop [nl]);
    [|reflexivity
     |intros y ->%list_elem_of_singleton;
      apply plain_not; [reflexivity|assumption]].
  repeat (simpl; rewrite <- app_assoc). reflexivity.
Qed.

(** The pair with its comma holds neither brace nor parenthesis, which every
    later rule of [comprehensive_fix] needs. *)
Lemma pair_lacks_brackets (y : char) (sep : buffer) :
  y ∈ [ch "{"; ch "}"; ch "("; ch ")"] ->
  sep = [] \/ sep = [comma] ->
  y ∉ spaces n ++ x1 :: i1 ++ colon :: v1 ++ sep ++ nl :: spaces (S m)
      ++ x2 :: i2 ++ colon :: r2.
Proof.
  intros Hy Hsep.
  assert (Hfacts : y <> ch " " /\ is_ident_char y = false /\ y <> colon /\
                   is_plain y = false /\ y <> comma /\ y <> nl).
  { repeat (apply elem_of_cons in Hy as [->|Hy];
            [repeat split; (reflexivity || discriminate)|]).
    inversion Hy. }
  destruct Hfacts as (Hsp & Hid & Hcolon & Hplain & Hcomma & Hnl).
  assert (Hstart : forall z, is_ident_start z = true -> y <> z).
  { intros z Hz <-. apply is_ident_start_char in Hz. congruence. }
  rewrite not_elem_of_app, not_elem_of_cons, not_elem_of_app,
    not_elem_of_cons, !not_elem_of_app, not_elem_of_cons, not_elem_of_app,
    not_elem_of_cons, not_elem_of_app, not_elem_of_cons.
  repeat split; auto using spaces_lack, ident_chars_lack, plain_not.
  destruct Hsep as [->| ->]; [apply not_elem_of_nil|].
  rewrite not_elem_of_cons. split; [exact Hcomma|apply not_elem_of_nil].
Qed.

Lemma comprehensive_pair :
  comprehensive_pass
    (spaces n ++ x1 :: i1 ++ colon :: v1 ++ nl :: spaces (S m)
     ++ x2 :: i2 ++ colon :: r2)
  = spaces n ++ x1 :: i1 ++ colon :: v1 ++ comma :: nl :: spaces (S m)
    ++ x2 :: i2 ++ colon :: r2.
Proof.
  unfold comprehensive_pass, run_rules, ComprehensiveFix.rules.
  cbn [fold_left]. rewrite missing_comma_on_pair.
  repeat rewrite (needs_noop [ch "{"; ch "}"; ch "("; ch ")"] _ _
                    (spaces n ++ x1 :: i1 ++ colon :: v1 ++ comma :: nl
                     :: spaces (S m) ++ x2 :: i2 ++ colon :: r2))
    by (try reflexivity; intros y Hy;
        apply (pair_lacks_brackets y [comma] Hy); auto).
  reflexivity.
Qed.

End MissingComma.

(** C5, amended. Two property lines [name: value] whose values hold no comma,
    brace, parenthesis or newline, the second indented by one blank or more:
    a pass of [comprehensive_fix] puts a comma at the end of the first line
    and changes nothing else.  For [gte: startDate] and [lte: endDate], each
    indented by two blanks, [fix_remaining_syntax] does the same.  The same
    two lines without indentation are returned as they are by both, because
    both patterns ask for whitespace before the property name. *)
Theorem scenario_missing_comma `{UnicodeDb} :
  (forall (n m : nat) (x1 : char) (i1 v1 : buffer) (x2 : char)
          (i2 r2 : buffer),
      is_ident_start x1 = true ->
      Forall (fun y => is_ident_char y = true) i1 ->
      v1 <> [] ->
      Forall (fun y => is_plain y = true) v1 ->
      is_ident_start x2 = true ->
      Forall (fun y => is_ident_char y = true) i2 ->
      Forall (fun y => is_plain y = true) r2 ->
      ComprehensiveFix.fix_content
        (spaces n ++ x1 :: i1 ++ colon :: v1 ++ nl :: spaces (S m)
         ++ x2 :: i2 ++ colon :: r2)
      = Return (spaces n ++ x1 :: i1 ++ colon :: v1 ++ comma :: nl
                :: spaces (S m) ++ x2 :: i2 ++ colon :: r2))
  /\ FixRemainingSyntax.fix_content sibling_pair_indented
    = Return sibling_pair_fixed
  /\ ComprehensiveFix.fix_content sibling_pair = Return sibling_pair
  /\ FixRemainingSyntax.fix_content sibling_pair = Return sibling_pair.
Proof.
  split; [|repeat split; vm_compute; reflexivity].
  intros n m x1 i1 v1 x2 i2 r2 Hx1 Hi1 Hv1 Hp1 Hx2 Hi2 Hr2.
  rewrite comprehensive_ok. f_equal. apply comprehensive_pair; assumption.
Qed.

Lemma scenario_missing_comma_witness :
  @ComprehensiveFix.fix_content ascii_only sibling_pair_indented
  = Return sibling_pair_fixed.
Proof.
  apply (proj1 (@scenario_missing_comma ascii_only) 2%nat 1%nat (ch "g")
           (str "te") (str " startDate") (ch "l") (str "te") (str " endDate"));
    try reflexivity; try discriminate; repeat constructor.
Defined.

Lemma scenario_missing_comma_as_stated_fails :
  sibling_pair <> str "gte: startDate," ++ [nl] ++ str "lte: endDate" /\
  forall udb : UnicodeDb,
    @ComprehensiveFix.fix_content udb sibling_pair = Return sibling_pair /\
    @FixRemainingSyntax.fix_content udb sibling_pair = Return sibling_pair.
Proof.
  split.
  - vm_compute. discriminate.
  - intros udb. split; vm_compute; reflexivity.
Qed.

(** ** The drivers *)

Lemma printed_print (line : string) (w : world) :
  printed (print line w) = printed w ++ [line].
Proof. unfold printed, print; simpl. rewrite omap_app. reflexivity. Qed.

Lemma printed_write_text (p : string) (c : buffer) (w : world) :
  printed (write_text p c w) = printed w.
Proof.
  unfold printed, write_text; simpl. rewrite omap_app. simpl.
  apply app_nil_r.
Qed.


Section DriverFacts.
Context `{UnicodeDb}.

Lemma fix_all_account (l : list string) :
  forall (n : nat) (w : world) (n' : nat) (w' : world),
    ComprehensiveFix.fix_all l n w = Return (n', w') ->
    exists ws,
      writes w' = writes w ++ ws /\
      printed w' = printed w ++ map fixed_line ws /\
      n' = (n + length ws)%nat /\
      Forall (fun pc => pc.1 ∈ l /\ is_Some (files w !! pc.1)) ws.
Proof.
  induction l as [|p l IH]; intros n w n' w'; simpl.
  - intros [= <- <-]. exists []. rewrite !app_nil_r. repeat split; auto.
  - destruct (files w !! p) as [c|] eqn:Hp.
    + rewrite (fix_file_syntax_present _ _ _ Hp).
      destruct (bool_decide (comprehensive_pass c ≠ c));
        rewrite bind_return; intros Hrun.
      * apply IH in Hrun as (ws & Hw & Hpr & Hn & Hall).
        exists ((p, comprehensive_pass c) :: ws).
        rewrite Hw, Hpr, writes_print, writes_write_text, printed_print,
          printed_write_text, <- !app_assoc. simpl.
        repeat split; [lia|].
        constructor.
        -- simpl. split; [apply list_elem_of_here|eauto].
        -- eapply Forall_impl; [exact Hall|].
           intros [q d] [Hq Hsome]. simpl in *.
           split; [apply list_elem_of_further, Hq|].
           destruct (decide (q = p)) as [->|Hqp]; [eauto|].
           rewrite lookup_insert_ne in Hsome by auto. exact Hsome.
      * apply IH in Hrun as (ws & Hw & Hpr & Hn & Hall).
        exists ws. repeat split; try assumption.
        eapply Forall_impl; [exact Hall|].
        intros pc [Hq Hsome].
        split; [apply list_elem_of_further, Hq|exact Hsome].
    + destruct (others w !! p) as [k|] eqn:Ho.
      * rewrite (fix_file_syntax_blocked p w k)
          by (unfold blocked; rewrite Hp; exact Ho).
        discriminate.
      * rewrite (fix_file_syntax_missing _ _ Hp Ho), bind_return.
        intros Hrun. apply IH in Hrun as (ws & Hw & Hpr & Hn & Hall).
        exists ws. repeat split; try assumption.
        eapply Forall_impl; [exact Hall|].
        intros pc [Hq Hsome].
        split; [apply list_elem_of_further, Hq|exact Hsome].
Qed.

Lemma comprehensive_main_finishes (api_files lib_files : list string)
    (w : world) :
  Forall (fun q => blocked q w = None) (api_files ++ lib_files) ->
  exists w', ComprehensiveFix.main api_files lib_files w = Return w'.
Proof.
  intros Hall. unfold ComprehensiveFix.main.
  destruct (fix_all_finishes _ 0 w Hall) as (n' & w1 & ->). eauto.
Qed.

Lemma syntax_errors_main_finishes (w : world) :
  Forall (fun q => blocked q w = None) FixSyntaxErrors.files_to_fix ->
  exists w', FixSyntaxErrors.main w = Return w'.
Proof.
  intros Hall. unfold FixSyntaxErrors.main.
  destruct (process_files_finishes _ w Hall) as (w1 & ->). eauto.
Qed.

End DriverFacts.

(** X1. A run of the driver of [comprehensive_fix] that returns has created
    and deleted no file, and a path that is in neither glob result holds
    what it held. *)
Theorem comprehensive_main_frame `{UnicodeDb}
    (api_files lib_files : list string) (w w' : world) :
  ComprehensiveFix.main api_files lib_files w = Return w' ->
  dom (files w') = dom (files w) /\
  others w' = others w /\
  forall p, p ∉ api_files ++ lib_files -> files w' !! p = files w !! p.
Proof.
  unfold ComprehensiveFix.main.
  destruct (ComprehensiveFix.fix_all _ _ _) as [[n' w1]|e] eqn:Hrun;
    [|discriminate].
  apply fix_all_store in Hrun as [Hfiles Hothers].
  intros [= <-]. simpl. rewrite Hfiles, Hothers.
  split; [apply altered_dom|]. split; [reflexivity|].
  intros p Hp. apply altered_not_listed, Hp.
Qed.

Lemma comprehensive_main_frame_witness :
  exists w',
    @ComprehensiveFix.main ascii_only ["src/app/api/a.ts"] [] api_world
      = Return w' /\
    files w' !! "src/app/api/b.ts" = Some (str "{, y").
Proof.
  destruct (@comprehensive_main_finishes ascii_only ["src/app/api/a.ts"] []
              api_world) as (w' & Hrun); [repeat constructor|].
  exists w'. split; [exact Hrun|].
  destruct (@comprehensive_main_frame ascii_only ["src/app/api/a.ts"] []
              api_world w' Hrun) as (_ & _ & Hframe).
  rewrite Hframe; [reflexivity|].
  apply (bool_decide_unpack _). vm_compute. exact I.
Defined.

(** X2. In a run of the driver of [comprehensive_fix] that returns, the
    count printed last is the number of files written: one ["Fixed: "] line
    per write, in the order of the writes, then the total; and only files
    that were listed and held text are written. *)
Theorem comprehensive_count_is_writes `{UnicodeDb}
    (api_files lib_files : list string) (w w' : world) :
  ComprehensiveFix.main api_files lib_files w = Return w' ->
  exists ws,
    writes w' = writes w ++ ws /\
    printed w' = printed w ++ map fixed_line ws ++
      [String "010" "Total files fixed: " +:+ pretty (length ws)] /\
    Forall (fun pc => pc.1 ∈ api_files ++ lib_files /\
                      is_Some (files w !! pc.1)) ws.
Proof.
  unfold ComprehensiveFix.main.
  destruct (ComprehensiveFix.fix_all _ _ _) as [[n' w1]|e] eqn:Hrun;
    [|discriminate].
  apply fix_all_account in Hrun as (ws & Hw & Hpr & -> & Hall).
  intros [= <-]. exists ws.
  rewrite writes_print, printed_print, Hw, Hpr, <- app_assoc. auto.
Qed.

Lemma comprehensive_count_is_writes_witness :
  exists w' ws,
    @ComprehensiveFix.main ascii_only
      ["src/app/api/a.ts"; "src/app/api/gone.ts"] [] api_world = Return w' /\
    writes w' = writes api_world ++ ws /\
    printed w' = printed api_world ++ map fixed_line ws ++
      [String "010" "Total files fixed: " +:+ pretty (length ws)].
Proof.
  destruct (@comprehensive_main_finishes ascii_only
              ["src/app/api/a.ts"; "src/app/api/gone.ts"] [] api_world)
    as (w' & Hrun); [repeat constructor|].
  destruct (@comprehensive_count_is_writes ascii_only
              ["src/app/api/a.ts"; "src/app/api/gone.ts"] [] api_world w'
              Hrun) as (ws & Hw & Hpr & _).
  exists w', ws. auto.
Defined.

(** X3. After a run of the driver of [fix_syntax_errors] that returns, no
    file has been created or deleted, every listed file that held text
    holds the result of one pass over it, every other path is as before,
    and the last line printed is ["Done!"]. *)
Theorem syntax_errors_main_effect `{UnicodeDb} (w w' : world) :
  FixSyntaxErrors.main w = Return w' ->
  dom (files w') = dom (files w) /\
  others w' = others w /\
  (forall p,
     files w' !! p =
       if bool_decide (p ∈ FixSyntaxErrors.files_to_fix)
       then syntax_errors_pass <$> files w !! p
       else files w !! p) /\
  last (printed w') = Some "Done!".
Proof.
  unfold FixSyntaxErrors.main.
  destruct (FixSyntaxErrors.process_files _ _) as [w1|e] eqn:Hrun;
    [|discriminate].
  apply process_files_store in Hrun as [Hfiles Hothers].
  intros [= <-]. simpl. rewrite Hfiles, Hothers.
  split; [apply altered_dom|]. split; [reflexivity|]. split.
  - intros p. destruct (bool_decide_reflect (p ∈ FixSyntaxErrors.files_to_fix))
      as [Hin|Hnot].
    + apply altered_listed_once; [|exact Hin].
      apply (bool_decide_unpack _). vm_compute. exact I.
    + apply altered_not_listed, Hnot.
  - rewrite printed_print. apply last_snoc.
Qed.

Lemma syntax_errors_main_effect_witness :
  exists w',
    @FixSyntaxErrors.main ascii_only clean_world = Return w' /\
    files w' !! FixRemainingSyntax.file_path
    = Some (@syntax_errors_pass ascii_only (str "{ a: 1, b: 2 }")) /\
    last (printed w') = Some "Done!".
Proof.
  destruct (@syntax_errors_main_finishes ascii_only clean_world)
    as (w' & Hrun).
  { apply Forall_forall. intros q _. destruct (blocked q clean_world) eqn:Hq;
      [|reflexivity].
    unfold blocked in Hq. destruct (files clean_world !! q); discriminate. }
  destruct (@syntax_errors_main_effect ascii_only clean_world w' Hrun)
    as (_ & _ & Hfiles & Hlast).
  exists w'. split; [exact Hrun|]. split; [|exact Hlast].
  rewrite Hfiles. reflexivity.
Defined.







(** ** Content no rule applies to *)

Section Clean.
Context `{UnicodeDb}.

(** Every rule of a list needs one of the characters [cs]. *)
Lemma run_rules_noop (cs : list char) (rs : list rule) (s : buffer) :
  forallb (fun rt : rule => needs cs rt.1) rs = true ->
  (forall x, x ∈ cs -> x ∉ s) ->
  run_rules rs s = s.
Proof.
  intros Hrs Hs. induction rs as [|[r tpl] rs IH]; [reflexivity|].
  simpl in Hrs. apply andb_prop in Hrs as [Hr Hrs].
  unfold run_rules. simpl. rewrite (needs_noop cs) by assumption.
  apply IH, Hrs.
Qed.

Lemma syntax_errors_pass_no_comma (s : buffer) :
  (comma ∉ s) -> syntax_errors_pass s = s.
Proof.
  intros Hs. apply (run_rules_noop [comma]); [reflexivity|].
  intros x ->%list_elem_of_singleton. exact Hs.
Qed.

Lemma remaining_pass_one_line (s : buffer) :
  (nl ∉ s) -> remaining_pass s = s.
Proof.
  intros Hs. apply (run_rules_noop [nl]); [reflexivity|].
  intros x ->%list_elem_of_singleton. exact Hs.
Qed.

Lemma comprehensive_pass_clean (s : buffer) :
  (comma ∉ s) -> (nl ∉ s) -> (ch ")" ∉ s) -> comprehensive_pass s = s.
Proof.
  intros Hc Hn Hp.
  unfold comprehensive_pass, ComprehensiveFix.rules.
  change ([ComprehensiveFix.missing_comma; ComprehensiveFix.comma_after_close;
           ComprehensiveFix.comma_before_close; ComprehensiveFix.missing_close;
           ComprehensiveFix.brace_comma; ComprehensiveFix.updated_at;
           ComprehensiveFix.triple_close])
    with ([ComprehensiveFix.missing_comma; ComprehensiveFix.comma_after_close]
          ++ [ComprehensiveFix.comma_before_close;
              ComprehensiveFix.missing_close; ComprehensiveFix.brace_comma;
              ComprehensiveFix.updated_at]
          ++ [ComprehensiveFix.triple_close]).
  rewrite !run_rules_app.
  rewrite (run_rules_noop [nl] _ s) by
    (try reflexivity; intros x ->%list_elem_of_singleton; exact Hn).
  rewrite (run_rules_noop [comma] _ s) by
    (try reflexivity; intros x ->%list_elem_of_singleton; exact Hc).
  apply (run_rules_noop [ch ")"]); [reflexivity|].
  intros x ->%list_elem_of_singleton. exact Hp.
Qed.

End Clean.

(** X5. Every rule of [fix_syntax_errors] needs a comma: content without
    one is returned as it is, and the driver reports such a file as needing
    no change, without writing it. *)
Theorem syntax_errors_only_touches_commas `{UnicodeDb} (s : buffer) :
  (comma ∉ s) ->
  FixSyntaxErrors.fix_syntax_errors s = Return s
  /\ forall (p : string) (w : world),
       files w !! p = Some s ->
       FixSyntaxErrors.process_file p w
       = Return (print ("  No changes needed in " +:+ p)
                   (print ("Processing " +:+ p +:+ "...") w)).
Proof.
  intros Hs. split.
  - rewrite syntax_errors_ok, syntax_errors_pass_no_comma by exact Hs.
    reflexivity.
  - intros p w Hp. rewrite (process_file_present _ _ _ Hp).
    rewrite syntax_errors_pass_no_comma by exact Hs.
    rewrite bool_decide_eq_false_2 by (intros Hne; apply Hne; reflexivity).
    reflexivity.
Qed.

Lemma syntax_errors_only_touches_commas_witness :
  @FixSyntaxErrors.fix_syntax_errors ascii_only (str "foo(a) { b: 1 }")
  = Return (str "foo(a) { b: 1 }").
Proof.
  apply (@syntax_errors_only_touches_commas ascii_only).
  apply (bool_decide_unpack _). vm_compute. exact I.
Defined.

(** X6. Every rule of [fix_remaining_syntax] needs a newline: content of a
    single line is returned as it is. *)
Theorem remaining_only_touches_line_ends `{UnicodeDb} (s : buffer) :
  (nl ∉ s) -> FixRemainingSyntax.fix_content s = Return s.
Proof.
  intros Hs. rewrite remaining_ok, remaining_pass_one_line by exact Hs.
  reflexivity.
Qed.

Lemma remaining_only_touches_line_ends_witness :
  @FixRemainingSyntax.fix_content ascii_only (str "  where  skip: 1, take")
  = Return (str "  where  skip: 1, take").
Proof.
  apply (@remaining_only_touches_line_ends ascii_only).
  apply (bool_decide_unpack _). vm_compute. exact I.
Defined.

(** X7. Every rule of [comprehensive_fix] needs a comma, a newline or a
    closing parenthesis: content with none of them is returned as it is, and
    [fix_file_syntax] answers [False] for such a file without writing it. *)
Theorem comprehensive_leaves_clean_files `{UnicodeDb} (s : buffer) :
  (comma ∉ s) -> (nl ∉ s) -> (ch ")" ∉ s) ->
  ComprehensiveFix.fix_content s = Return s
  /\ forall (p : string) (w : world),
       files w !! p = Some s ->
       ComprehensiveFix.fix_file_syntax p w = Return (false, w).
Proof.
  intros Hc Hn Hp. split.
  - rewrite comprehensive_ok, comprehensive_pass_clean by assumption.
    reflexivity.
  - intros p w Hf. rewrite (fix_file_syntax_present _ _ _ Hf).
    rewrite comprehensive_pass_clean by assumption.
    rewrite bool_decide_eq_false_2 by (intros Hne; apply Hne; reflexivity).
    reflexivity.
Qed.

Lemma comprehensive_leaves_clean_files_witness :
  @ComprehensiveFix.fix_content ascii_only (str "const a = { b: 1 };")
  = Return (str "const a = { b: 1 };").
Proof.
  apply (@comprehensive_leaves_clean_files ascii_only);
    apply (bool_decide_unpack _); vm_compute; exact I.
Defined.

(** ** The inserted comma stays *)

Section Stable.
Context `{UnicodeDb}.
Variables (n m : nat) (x1 : char) (i1 v1 : buffer) (x2 : char) (i2 r2 : buffer).
Hypothesis name1_start : is_ident_start x1 = true.
Hypothesis name1_rest : Forall (fun y => is_ident_char y = true) i1.
Hypothesis value1_not_empty : v1 <> [].
Hypothesis value1_plain : Forall (fun y => is_plain y = true) v1.
Hypothesis name2_start : is_ident_start x2 = true.
Hypothesis name2_rest : Forall (fun y => is_ident_char y = true) i2.
Hypothesis rest2_plain : Forall (fun y => is_plain y = true) r2.




End Stable.



(** ** What the rewrites can add *)

Lemma count_char_app (c : char) (s1 s2 : buffer) :
  count_char c (s1 ++ s2) = (count_char c s1 + count_char c s2)%nat.
Proof. induction s1 as [|x s1 IH]; simpl; [reflexivity|rewrite IH; lia]. Qed.

Lemma caps_count_app (c : char) (l1 l2 : captures) :
  caps_count c (l1 ++ l2) = (caps_count c l1 + caps_count c l2)%nat.
Proof.
  induction l1 as [|[k v] l1 IH]; simpl; [reflexivity|rewrite IH; lia].
Qed.

Section Budget.
Context `{UnicodeDb}.

(** A pattern without groups records nothing. *)
Lemma group_free_caps (r : re) (s : buffer) (caps : captures) (s' : buffer)
    (caps' : captures) :
  matches r s caps s' caps' -> group_free r = true -> caps' = caps.
Proof.
  induction 1 as [s caps|p s caps|cs0 a s caps Ha|min cs0 w s caps Hw Hmin
                 |r1 r2 s caps s1 caps1 s2 caps2 _ IH1 _ IH2
                 |r1 r2 s caps s' caps' _ IH|r1 r2 s caps s' caps' _ IH
                 |n r s caps s' caps' _ IH|s caps He]; simpl; intros Hg;
    try reflexivity; try discriminate.
  - apply andb_prop in Hg as [Hg1 Hg2]. rewrite IH2, IH1 by assumption.
    reflexivity.
  - apply andb_prop in Hg as [Hg1 Hg2]. auto.
  - apply andb_prop in Hg as [Hg1 Hg2]. auto.
Qed.

(** What a match consumes pays for its literals and for what its groups
    record. *)
Lemma matches_budget (c : char) (r : re) (s : buffer) (caps : captures)
    (s' : buffer) (caps' : captures) :
  matches r s caps s' caps' -> flat r = true ->
  exists m new, s = m ++ s' /\ caps' = new ++ caps /\
    (lit_count c r + caps_count c new <= count_char c m)%nat /\
    (min_len r <= length m)%nat.
Proof.
  induction 1 as [s caps|p s caps|cs0 a s caps Ha|min cs0 w s caps Hw Hmin
                 |r1 r2 s caps s1 caps1 s2 caps2 _ IH1 _ IH2
                 |r1 r2 s caps s' caps' _ IH|r1 r2 s caps s' caps' _ IH
                 |n r s caps s' caps' Hm IH|s caps He]; simpl; intros Hf.
  - exists [], []. simpl. repeat split; lia.
  - exists p, []. simpl. repeat split; lia.
  - exists [a], []. simpl. repeat split; lia.
  - exists w, []. simpl. repeat split; lia.
  - apply andb_prop in Hf as [Hf1 Hf2].
    destruct (IH1 Hf1) as (m1 & new1 & -> & -> & Hc1 & Hl1).
    destruct (IH2 Hf2) as (m2 & new2 & -> & -> & Hc2 & Hl2).
    exists (m1 ++ m2), (new2 ++ new1).
    rewrite <- !app_assoc, count_char_app, caps_count_app, length_app.
    repeat split; lia.
  - apply andb_prop in Hf as [Hf1 Hf2].
    destruct (IH Hf1) as (m & new & -> & -> & Hc & Hl).
    exists m, new. repeat split; lia.
  - apply andb_prop in Hf as [Hf1 Hf2].
    destruct (IH Hf2) as (m & new & -> & -> & Hc & Hl).
    exists m, new. repeat split; lia.
  - pose proof (group_free_caps _ _ _ _ _ Hm Hf) as ->.
    assert (flat r = true) as Hfl.
    { clear -Hf. induction r; simpl in *; try reflexivity; try discriminate.
      - apply andb_prop in Hf as [? ?]. rewrite IHr1, IHr2 by assumption.
        reflexivity.
      - apply andb_prop in Hf as [? ?]. rewrite IHr1, IHr2 by assumption.
        reflexivity. }
    destruct (IH Hfl) as (m & new & -> & Hcaps & Hc & Hl).
    exists m, [(n, m)]. rewrite span_app. simpl. repeat split; lia.
  - exists [], []. simpl. repeat split; lia.
Qed.

End Budget.

(** A template writes its own text and one copy of each group it names. *)
Lemma expand_count (c : char) (t : template) (caps : captures) :
  count_char c (expand t caps)
  = (count_char c (tpl_text t) + refs_count c (tpl_refs t) caps)%nat.
Proof.
  induction t as [|[p|n] t IH]; simpl; [reflexivity| |];
    rewrite !count_char_app, IH; lia.
Qed.

Lemma refs_count_skip (c : char) (k : nat) (v : buffer) (caps : captures)
    (ns : list nat) :
  k ∉ ns -> refs_count c ns ((k, v) :: caps) = refs_count c ns caps.
Proof.
  induction ns as [|n ns IH]; intros Hk; [reflexivity|].
  apply not_elem_of_cons in Hk as [Hne Hk]. simpl.
  destruct (Nat.eqb_spec k n) as [->|_]; [contradiction|].
  rewrite IH by assumption. reflexivity.
Qed.

(** Groups named once each cost no more than what the groups recorded. *)
Lemma refs_count_le (c : char) (caps : captures) :
  forall ns, NoDup ns -> (refs_count c ns caps <= caps_count c caps)%nat.
Proof.
  induction caps as [|[k v] caps IH]; intros ns Hnd.
  - induction ns as [|n ns IHn]; simpl; [lia|].
    apply NoDup_cons in Hnd as [_ Hnd]. specialize (IHn Hnd). simpl in IHn. lia.
  - assert (forall ns, NoDup ns ->
              exists ns', NoDup ns' /\ ns' ⊆ ns /\
                (refs_count c ns ((k, v) :: caps)
                 <= count_char c v + refs_count c ns' caps)%nat) as Hstep.
    { clear ns Hnd. induction ns as [|n ns IHn]; intros Hnd.
      - exists []. split; [constructor|]. split; [intros x Hx; exact Hx|simpl; lia].
      - apply NoDup_cons in Hnd as [Hn Hnd]. simpl.
        destruct (Nat.eqb_spec k n) as [->|Hne].
        + exists ns. split; [assumption|].
          split; [intros x Hx; apply list_elem_of_further, Hx|].
          rewrite refs_count_skip by assumption. lia.
        + destruct (IHn Hnd) as (ns' & Hnd' & Hsub & Hle).
          exists (n :: ns'). split; [apply NoDup_cons; auto|].
          split; [|simpl; lia].
          intros x Hx. apply elem_of_cons in Hx as [->|Hx];
            [apply list_elem_of_here|apply list_elem_of_further, Hsub, Hx]. }
    destruct (Hstep ns Hnd) as (ns' & Hnd' & _ & Hle). simpl.
    specialize (IH ns' Hnd'). lia.
Qed.

Section Scan.
Context `{UnicodeDb}.

(** One substitution by a rule that cannot add a [c] adds none. *)
Lemma sub_go_adds_no (c : char) (rt : rule) :
  adds_no c rt = true ->
  forall s, (count_char c (sub_go rt.1 rt.2 0 s) <= count_char c s)%nat.
Proof.
  destruct rt as [r t]. unfold adds_no, linear_rule. simpl fst. simpl snd.
  intros Hok.
  apply andb_prop in Hok as [Hok Hle]. apply andb_prop in Hok as [Hok Hnd].
  apply andb_prop in Hok as [Hlen Hflat].
  apply Nat.leb_le in Hle, Hlen. apply bool_decide_eq_true_1 in Hnd.
  intros s. remember (length s) as k eqn:Hk.
  revert s Hk. induction k as [k IH] using lt_wf_ind. intros s ->.
  destruct (match_at r s false) as [[rest caps]|] eqn:Hm.
  - pose proof (match_at_sound _ _ _ _ Hm) as Hms.
    destruct (matches_budget c _ _ _ _ _ Hms Hflat)
      as (m & new & -> & -> & Hc & Hl).
    assert (m <> []) as Hne by (intros ->; simpl in Hl; lia).
    rewrite (sub_go_match _ _ _ m rest _ Hm eq_refl Hne).
    rewrite !count_char_app, expand_count, app_nil_r.
    pose proof (refs_count_le c new _ Hnd).
    assert (length rest < length (m ++ rest))%nat as Hlt.
    { rewrite length_app. destruct m; [contradiction|simpl; lia]. }
    specialize (IH _ Hlt rest eq_refl). lia.
  - destruct s as [|x s].
    + rewrite sub_go_nil_nomatch by assumption. lia.
    + rewrite sub_go_nomatch by assumption. simpl.
      specialize (IH (length s) ltac:(simpl; lia) s eq_refl). lia.
Qed.

(** A sequence of such rules adds none either. *)
Lemma run_rules_adds_no (c : char) (rs : list rule) :
  forallb (adds_no c) rs = true ->
  forall s, (count_char c (run_rules rs s) <= count_char c s)%nat.
Proof.
  induction rs as [|rt rs IH]; intros Hall s; [simpl; lia|].
  simpl in Hall. apply andb_prop in Hall as [Hrt Hall].
  change (run_rules (rt :: rs) s)
    with (run_rules rs (sub_go rt.1 rt.2 0 s)).
  etransitivity; [apply IH, Hall|apply sub_go_adds_no, Hrt].
Qed.

Lemma count_char_fresh (c : char) (s : buffer) :
  c ∉ s -> count_char c s = O.
Proof.
  induction s as [|x s IH]; intros Hc; [reflexivity|].
  apply not_elem_of_cons in Hc as [Hne Hc]. simpl.
  destruct (N.eqb_spec x c) as [->|_]; [contradiction|].
  rewrite IH by assumption. reflexivity.
Qed.

(** Checking the characters the templates write is enough: a rule adds no
    character its template does not write. *)
Lemma add_only_adds_no (cs : list char) (rs : list rule) (c : char) :
  add_only cs rs = true -> c ∉ cs -> forallb (adds_no c) rs = true.
Proof.
  unfold add_only. intros Hok Hc. apply andb_prop in Hok as [Hlin Hall].
  destruct (decide (c ∈ tpl_alphabet rs)) as [Hin|Hout].
  - rewrite forallb_forall in Hall.
    apply list_elem_of_In, Hall in Hin.
    apply orb_prop in Hin as [Hcs|Hin]; [|exact Hin].
    apply existsb_exists in Hcs as (x & Hx & Heq).
    apply N.eqb_eq in Heq as ->. apply list_elem_of_In in Hx. contradiction.
  - clear Hall. unfold tpl_alphabet in Hout.
    induction rs as [|rt rs IH]; [reflexivity|].
    simpl in Hlin, Hout |- *. apply andb_prop in Hlin as [Hrt Hlin].
    apply not_elem_of_app in Hout as [Hout1 Hout2].
    rewrite IH by assumption. unfold adds_no.
    rewrite Hrt, count_char_fresh by assumption. reflexivity.
Qed.

Lemma run_rules_add_only (cs : list char) (rs : list rule) (s : buffer)
    (c : char) :
  add_only cs rs = true -> c ∉ cs ->
  (count_char c (run_rules rs s) <= count_char c s)%nat.
Proof.
  intros Hok Hc. apply run_rules_adds_no, (add_only_adds_no cs); assumption.
Qed.

(** A buffer has one line more than it has newlines. *)
Lemma length_lines (s : buffer) : length (lines s) = S (count_char nl s).
Proof.
  induction s as [|x s IH]; [reflexivity|]. simpl.
  destruct (x =? nl); simpl; [rewrite IH; reflexivity|].
  destruct (lines s) as [|l ls]; [discriminate|]. simpl in *. lia.
Qed.

End Scan.

(** X9. [fix_syntax_errors] returns, and what it returns holds no more of any
    character than its argument did, closing parentheses and blanks apart:
    the seven rewrites can only insert [")"] and [" "]. *)
Theorem syntax_errors_adds_only `{UnicodeDb} (s : buffer) :
  exists out, FixSyntaxErrors.fix_syntax_errors s = Return out /\
    forall c, c ∉ [ch ")"; ch " "] ->
      (count_char c out <= count_char c s)%nat.
Proof.
  exists (syntax_errors_pass s). split; [apply syntax_errors_ok|].
  intros c Hc. apply (run_rules_add_only [ch ")"; ch " "]); [|exact Hc].
  vm_compute. reflexivity.
Qed.

(** X10. The rewrites of [fix_file_syntax] can only insert commas, closing
    parentheses and blanks: the new content holds no more of any other
    character than the content read. *)
Theorem comprehensive_adds_only `{UnicodeDb} (s : buffer) :
  exists out, ComprehensiveFix.fix_content s = Return out /\
    forall c, c ∉ [comma; ch ")"; ch " "] ->
      (count_char c out <= count_char c s)%nat.
Proof.
  exists (comprehensive_pass s). split; [apply comprehensive_ok|].
  intros c Hc. apply (run_rules_add_only [comma; ch ")"; ch " "]); [|exact Hc].
  vm_compute. reflexivity.
Qed.

(** X11. The rewrites of [fix_remaining_syntax] can only insert commas and
    blanks. *)
Theorem remaining_adds_only `{UnicodeDb} (s : buffer) :
  exists out, FixRemainingSyntax.fix_content s = Return out /\
    forall c, c ∉ [comma; ch " "] ->
      (count_char c out <= count_char c s)%nat.
Proof.
  exists (remaining_pass s). split; [apply remaining_ok|].
  intros c Hc. apply (run_rules_add_only [comma; ch " "]); [|exact Hc].
  vm_compute. reflexivity.
Qed.

(** X12. No script ever splits a line: what each of them computes has no
    more lines than the content it was given. *)
Theorem line_count_never_grows `{UnicodeDb} (s : buffer) :
  (length (lines (comprehensive_pass s)) <= length (lines s))%nat /\
  (length (lines (syntax_errors_pass s)) <= length (lines s))%nat /\
  (length (lines (remaining_pass s)) <= length (lines s))%nat.
Proof.
  rewrite !length_lines.
  assert (forall cs rs, add_only cs rs = true -> nl ∉ cs ->
            (S (count_char nl (run_rules rs s)) <= S (count_char nl s))%nat)
    as Hle.
  { intros cs rs Hok Hnl. apply le_n_S, (run_rules_add_only cs); assumption. }
  repeat split.
  - apply (Hle [comma; ch ")"; ch " "]); [vm_compute; reflexivity|].
    rewrite !not_elem_of_cons. repeat split; try discriminate.
    apply not_elem_of_nil.
  - apply (Hle [ch ")"; ch " "]); [vm_compute; reflexivity|].
    rewrite !not_elem_of_cons. repeat split; try discriminate.
    apply not_elem_of_nil.
  - apply (Hle [comma; ch " "]); [vm_compute; reflexivity|].
    rewrite !not_elem_of_cons. repeat split; try discriminate.
    apply not_elem_of_nil.
Qed.
